(** * IceBin / GLINT2 coupling library: contracts, variable transformers,
      regridding accumulators and the merged-TOPOO batch tool.

    A shallow embedding of the C++ sources
      - [giss::CoupledField], [giss::CouplingContract]  (coupling contract header)
      - [IceModel_PISM::setup_contracts_modele]          (contracts/modele_pism.cpp)
      - [MatrixMaker::compute_fhc], [MatrixMaker::hp_to_hc] (MatrixMaker.cpp)
      - [main] of make_merged_topoo.cpp
      - [ModelEDomain]                                    (ModelEDomain.hpp)
      - [MatrixMaker::add_ice_sheet], [clear], [netcdf_define],
        [parse_comma_list], [read_from_netcdf]            (MatrixMaker.cpp)
    followed by the properties established about them. *)

From Stdlib Require Import ZArith QArith Qcanon PrimFloat String List Ascii.
From stdpp Require Import gmap strings list fin_maps.

Local Open Scope string_scope.
Local Open Scope list_scope.
Local Open Scope Z_scope.

#[local] Set Warnings "-inexact-float".

(* ===================================================================== *)
(** * Numbers *)
(* ===================================================================== *)

(** The sources compute with C++ [double].  Containers such as
    [giss::CooVector<IndexT,ValT>] and [giss::SparseAccumulator<IndexT,AccumT>]
    are templates over the value type, so the embedding is written once
    over an interface of arithmetic operations.  Two instances are used:
    IEEE binary64 (what the program runs on) and exact rationals (for
    algebraic properties where rounding is set aside). *)
Class Arith (V : Type) : Type := {
    vzero : V;
    vone  : V;
    vadd  : V -> V -> V;
    vopp  : V -> V;
    vmul  : V -> V -> V;
    vdiv  : V -> V -> V;
    vltb  : V -> V -> bool;
  }.

(** [double]: IEEE 754 binary64. *)
#[export] Instance Arith_double : Arith float := {|
    vzero := 0%float;
    vone  := 1%float;
    vadd  := PrimFloat.add;
    vopp  := PrimFloat.opp;
    vmul  := PrimFloat.mul;
    vdiv  := PrimFloat.div;
    vltb  := PrimFloat.ltb;
  |}.

Definition Qc_ltb (a b : Qc) : bool :=
  match (a ?= b)%Qc with Lt => true | _ => false end.

(** Exact rational arithmetic, used where a property is algebraic. *)
#[export] Instance Arith_exact : Arith Qc := {|
    vzero := 0%Qc;
    vone  := 1%Qc;
    vadd  := Qcplus;
    vopp  := Qcopp;
    vmul  := Qcmult;
    vdiv  := Qcdiv;
    vltb  := Qc_ltb;
  |}.

(** Sum of a list, accumulated left to right from zero. *)
Definition vsum {V} `{Arith V} (l : list V) : V := fold_left vadd l vzero.

(* ===================================================================== *)
(** * Outcomes of fallible calls *)
(* ===================================================================== *)

(** A call either returns, terminates the process through [giss::exit]
    or an error callback (exit status and the text written to stderr),
    or leaves through a C++ exception. *)
Inductive outcome (A : Type) : Type :=
  | Ret (a : A)
  | Fatal (status : Z) (diagnostic : string)
  | Throw.
Arguments Ret {A} a.
Arguments Fatal {A} status diagnostic.
Arguments Throw {A}.

Definition nl : string := String (Ascii.ascii_of_nat 10) EmptyString.

(* ===================================================================== *)
(** * Coupling contracts *)
(* ===================================================================== *)

Module CouplingContract.

(** [struct CoupledField : public giss::VarMetaData]. *)
Record CoupledField : Type := mkCoupledField {
    name : string;
    default_value : float;
    units : string;           (* UDUnits-compatible string *)
    flags : N;                (* unsigned; allows arbitrary subsets *)
    description : string;
  }.

(** [struct CouplingContract : public giss::DynamicEnum]. *)
Record t : Type := mk {
    _ix_to_field : list CoupledField;   (* std::vector<CoupledField> *)
    _name_to_ix  : gmap string Z;       (* std::map<std::string,int> *)
    _size_nounit : Z;                   (* Num names, not including "unit" *)
    _unit_ix     : Z;
  }.

(** [CouplingContract() : _size_nounit(0), _unit_ix(1) {}]. *)
Definition new : t :=
  {| _ix_to_field := []; _name_to_ix := ∅; _size_nounit := 0; _unit_ix := 1 |}.

(** [long size_withunit() const { return _ix_to_field.size(); }] *)
Definition size_withunit (c : t) : Z := Z.of_nat (length (_ix_to_field c)).


(** [int unit_ix() const { return _unit_ix; }] *)
Definition unit_ix (c : t) : Z := _unit_ix c.

Definition index_diagnostic (name : string) : string :=
  "CouplingContract::index(): name '" +:+ name +:+ "' not found" +:+ nl.

(** [int index(std::string const &name, bool throw_exception=true) const]:
    a miss in strict mode prints the diagnostic and calls [giss::exit(1)];
    a miss otherwise returns -1; a hit returns [ii->second]. *)
Definition index (c : t) (name : string) (throw_exception : bool) : outcome Z :=
  match _name_to_ix c !! name with
  | None =>
      if throw_exception then Fatal 1 (index_diagnostic name)
      else Ret (-1)
  | Some ix => Ret ix
  end.

(** [std::string const &name(int ix) const] and [field(int ix)]:
    [_ix_to_field[ix]], undefined out of range. *)
Definition field (c : t) (ix : Z) : option CoupledField :=
  if ix <? 0 then None else _ix_to_field c !! Z.to_nat ix.

Definition name_of (c : t) (ix : Z) : option string := name <$> field c ix.

Definition duplicate_diagnostic (name : string) : string :=
  "CouplingContract::add_field(): duplicate name '" +:+ name +:+ "'" +:+ nl.

(** Modelled from the spec: [int add_field(CoupledField &&cf)] is only
    declared in the header; its body is not among the sources.  Following
    the specification (section 4.1) it fails fatally when the name is
    already present and otherwise appends the field, records
    name -> index and returns the index (stable insertion order).
    The specification does not say how the body updates [_size_nounit]
    and [_unit_ix]; the update written here follows the comment of the
    member in the header (the number of names, not including "unit"); the
    properties of contracts proved below use only the appended field and
    the recorded name -> index. *)
Definition add_field_rv (c : t) (cf : CoupledField) : outcome (Z * t) :=
  match _name_to_ix c !! name cf with
  | Some _ => Fatal 1 (duplicate_diagnostic (name cf))
  | None =>
      let ix := Z.of_nat (length (_ix_to_field c)) in
      let is_unit := String.eqb (name cf) "unit" in
      Ret (ix,
           {| _ix_to_field := _ix_to_field c ++ [cf];
              _name_to_ix  := <[name cf := ix]> (_name_to_ix c);
              _size_nounit := if is_unit then _size_nounit c
                              else _size_nounit c + 1;
              _unit_ix     := if is_unit then ix else _unit_ix c |})
  end.

(** ** Overload resolution for the one-argument [add_field] calls *)

(** Value category and constness of an argument expression of class
    type [CoupledField]. *)
Inductive value_category : Type := lvalue | xvalue | prvalue.

Record arg_expr : Type := mkArg {
    category : value_category;
    is_const : bool;
  }.

(** The two one-argument overloads declared in the class. *)
Inductive overload : Type :=
  | add_field_rref     (* int add_field(CoupledField &&cf);            *)
  | add_field_cref.    (* int add_field(CoupledField const &cf) {...}  *)

Definition is_rvalue (vc : value_category) : bool :=
  match vc with lvalue => false | xvalue | prvalue => true end.

(** Reference binding: [CoupledField &&] binds only to non-const
    rvalues; [CoupledField const &] binds to every expression. *)
Definition binds (o : overload) (a : arg_expr) : bool :=
  match o with
  | add_field_rref => is_rvalue (category a) && negb (is_const a)
  | add_field_cref => true
  end.

(** [std::move(e)]: an xvalue of the same (cv-qualified) type. *)
Definition std_move (a : arg_expr) : arg_expr :=
  {| category := xvalue; is_const := is_const a |}.

(** When both overloads are viable the rvalue-reference binding wins;
    otherwise the const-reference overload is the only candidate. *)
Definition resolve (a : arg_expr) : overload :=
  if binds add_field_rref a then add_field_rref else add_field_cref.

(** The parameter [cf] of the const-reference overload, used as an
    expression: an lvalue of type [CoupledField const]. *)
Definition param_cref : arg_expr := {| category := lvalue; is_const := true |}.

(** A temporary [CoupledField(...)]: a non-const prvalue. *)
Definition temporary : arg_expr := {| category := prvalue; is_const := false |}.

(** Running a one-argument [add_field] call.  [fuel] bounds the number
    of nested calls; [None] means the bound was reached without any
    call having returned.

    [int add_field(CoupledField const &cf) {
         CoupledField dup(cf);
         return add_field(std::move(cf));
     }] *)
Fixpoint call_add_field (fuel : nat) (o : overload) (c : t) (cf : CoupledField)
  : option (outcome (Z * t)) :=
  match fuel with
  | O => None
  | S fuel' =>
      match o with
      | add_field_rref => Some (add_field_rv c cf)
      | add_field_cref =>
          let dup := cf in
          call_add_field fuel' (resolve (std_move param_cref)) c cf
      end
  end.

(** The same execution as a transition system on call stacks: a
    configuration is the stack of active overload bodies, or a finished
    call. *)
Inductive config : Type :=
  | Running (stack : list overload) (c : t) (cf : CoupledField)
  | Returned (r : outcome (Z * t)).

Inductive step : config -> config -> Prop :=
  | step_rref stack c cf :
      step (Running (add_field_rref :: stack) c cf) (Returned (add_field_rv c cf))
  | step_cref stack c cf :
      step (Running (add_field_cref :: stack) c cf)
           (Running (resolve (std_move param_cref) :: add_field_cref :: stack) c cf).

(** [int add_field(std::string const &name, double default_value,
                   std::string const &units, unsigned flags = 0,
                   std::string const &description = "<no description>")
     { return add_field(CoupledField(name, default_value, units, flags, description)); }] *)
Definition add_field (fuel : nat) (c : t) (name : string) (default_value : float)
    (units : string) (flags : N) (description : string)
  : option (outcome (Z * t)) :=
  call_add_field fuel (resolve temporary) c
    (mkCoupledField name default_value units flags description).

(** Contracts that can be built: the default-constructed one, and any
    contract returned by a successful [add_field]. *)
Inductive reachable : t -> Prop :=
  | reachable_new : reachable new
  | reachable_add c cf ix c' :
      reachable c -> add_field_rv c cf = Ret (ix, c') -> reachable c'.

End CouplingContract.

(* ===================================================================== *)
(** * Variable transformers *)
(* ===================================================================== *)

Module VarTransformer.
Section Tensor.
Context {V : Type} `{Arith V}.

(** The three named axes ([VarTransformer::INPUTS], [OUTPUTS],
  [SCALARS]). *)
Inductive axis : Type := INPUTS | OUTPUTS | SCALARS.

(** Modelled from the spec: the class [VarTransformer] is used by the
  contract setup but is not among the sources.  Following the
  specification (sections 3 and 4.2) it is a coefficient tensor
  indexed by (output, input, scalar) over three named axes, each bound
  once by [set_names]. *)
Record t : Type := mk {
  inputs  : option CouplingContract.t;
  outputs : option CouplingContract.t;
  scalars : option CouplingContract.t;
  tensor  : Z -> Z -> Z -> V;
  }.

Definition empty : t :=
  {| inputs := None; outputs := None; scalars := None;
     tensor := fun _ _ _ => vzero |}.

(** Modelled from the spec: [set_names(axis, contract_or_scalarset)]
  binds one axis of the transformer (VarTransformer is not among the
  sources). *)
Definition set_names (vt : t) (a : axis) (c : CouplingContract.t) : t :=
  match a with
  | INPUTS  => {| inputs := Some c; outputs := outputs vt;
                  scalars := scalars vt; tensor := tensor vt |}
  | OUTPUTS => {| inputs := inputs vt; outputs := Some c;
                  scalars := scalars vt; tensor := tensor vt |}
  | SCALARS => {| inputs := inputs vt; outputs := outputs vt;
                  scalars := Some c; tensor := tensor vt |}
  end.

(** Modelled from the spec: [allocate()] sizes the tensor to
  (|OUTPUTS|, |INPUTS|+1, |SCALARS|+1) and zero-fills it
  (VarTransformer is not among the sources). *)
Definition allocate (vt : t) : t :=
  {| inputs := inputs vt; outputs := outputs vt; scalars := scalars vt;
     tensor := fun _ _ _ => vzero |}.

(** Modelled from the spec: number of named entries of an axis; the
  implicit unit term of the INPUTS and SCALARS axes occupies the slot
  after them (VarTransformer is not among the sources). *)
Definition extent (c : CouplingContract.t) : Z :=
  Z.of_nat (length (CouplingContract._ix_to_field c)).

(** Modelled from the spec: resolution of a name against a bound axis
  (VarTransformer is not among the sources).  A registered name resolves
  to its index (non-strict lookup, [-1] on a miss); on the INPUTS and
  SCALARS axes the name "unit" resolves to the implicit unit slot. *)
Definition resolve (with_unit : bool) (ax : option CouplingContract.t)
    (name : string) : option Z :=
  match ax with
  | None => None
  | Some c =>
      if with_unit && String.eqb name "unit" then Some (extent c)
      else match CouplingContract.index c name false with
           | Ret ix => if ix <? 0 then None else Some ix
           | _ => None
           end
  end.

(** Modelled from the spec: [bool set(output, input, scalar, coefficient)]
  accumulates (does not overwrite) into the tensor cell and returns
  false when any of the three names fails to resolve against its bound
  axis (VarTransformer is not among the sources). *)
Definition set (vt : t) (output input scalar : string) (val : V) : bool * t :=
  match resolve false (outputs vt) output,
        resolve true (inputs vt) input,
        resolve true (scalars vt) scalar with
  | Some o, Some i, Some s =>
      (true,
       {| inputs := inputs vt; outputs := outputs vt; scalars := scalars vt;
          tensor := fun o' i' s' =>
            if (o' =? o) && (i' =? i) && (s' =? s)
            then vadd (tensor vt o' i' s') val
            else tensor vt o' i' s' |})
  | _, _, _ => (false, vt)
  end.

Definition range (n : Z) : list Z := map Z.of_nat (seq 0 (Z.to_nat n)).

(** Modelled from the spec: value of slot [i] of a vector extended by
  the implicit unit slot, which is fixed at 1. *)
Definition slot (vals : list V) (n : Z) (i : Z) : V :=
  if i =? n then vone else nth (Z.to_nat i) vals vzero.

(** Modelled from the spec: timestep evaluation,
  [out[o] = sum_i sum_s coeff[o,i,s] * in[i] * scalar[s]], the sums
  running over the named entries and the implicit unit slot
  (VarTransformer is not among the sources). *)
Definition evaluate_at (vt : t) (inp scal : list V) (o : Z) : V :=
  let ni := from_option extent 0 (inputs vt) in
  let ns := from_option extent 0 (scalars vt) in
  vsum (i ← range (ni + 1);
        s ← range (ns + 1);
        [vmul (vmul (tensor vt o i s) (slot inp ni i)) (slot scal ns s)]).

Definition evaluate (vt : t) (inp scal : list V) : list V :=
  map (evaluate_at vt inp scal) (range (from_option extent 0 (outputs vt))).

(** Value of the named output after evaluation. *)
Definition evaluate_named (vt : t) (inp scal : list V) (output : string)
  : option V :=
  evaluate_at vt inp scal <$> resolve false (outputs vt) output.

End Tensor.
Arguments t V : clear implicits.
End VarTransformer.

(* ===================================================================== *)
(** * The ModelE <-> PISM contract (contracts/modele_pism.cpp) *)
(* ===================================================================== *)

#[export] Instance outcome_ret : MRet outcome := fun _ a => Ret a.
#[export] Instance outcome_bind : MBind outcome := fun _ _ f m =>
  match m with
  | Ret a => f a
  | Fatal st d => Fatal st d
  | Throw => Throw
  end.

#[export] Instance outcome_fmap : FMap outcome := fun _ _ f m =>
  match m with
  | Ret a => Ret (f a)
  | Fatal st d => Fatal st d
  | Throw => Throw
  end.

Module ModelePism.
Section Setup.
Context {V : Type} `{Arith V}.

(** Flag constants of contracts.hpp. *)
Definition GRID_BITS : N := 3.
Definition ATMOSPHERE : N := 1.
Definition ICE : N := 2.
Definition ELEVATION : N := 3.
Definition INITIAL : N := 4.

Definition grid_flag (s : string) : N :=
  if String.eqb s "ATMOSPHERE" then ATMOSPHERE
  else if String.eqb s "ICE" then ICE
  else if String.eqb s "ELEVATION" then ELEVATION
  else 0%N.

(** Modelled from the spec: the contract setup registers its fields
  through a four-string [add_field(name, units, grid, description)]
  that the header among the sources does not declare.  It registers a
  field of that name and unit on the named grid (default value 0) with
  the behaviour of [add_field(CoupledField &&)]. *)
Definition add_field4 (c : CouplingContract.t) (name units grid descr : string)
  : outcome CouplingContract.t :=
  snd <$> CouplingContract.add_field_rv c
    (CouplingContract.mkCoupledField name 0%float units (grid_flag grid) descr).

(** [BOOST_ENUM ModelE_CouplingType]. *)
Inductive ModelE_CouplingType : Type := DIRICHLET_BC | NEUMANN_BC.

(** The part of [GCMCoupler_ModelE] the setup reads (the class itself
  is not among the sources): the GCM-side contracts and scalar sets. *)
Record GCMCoupler : Type := mkCoupler {
  gcm_outputs : CouplingContract.t;
  gcm_inputs  : CouplingContract.t;
  ice_input_scalars  : CouplingContract.t;
  ice_output_scalars : CouplingContract.t;
  }.

Definition MASS_FLUX : string := "surface_downward_mass_flux".
Definition ENTHALPY_FLUX : string := "surface_downward_enthalpy_flux".
Definition T : string := "surface_temperature".
Definition HEAT_FLUX : string := "surface_downward_conductive_heat_flux".

(** One [vt.set(output, input, scalar, coefficient)] call. *)
Record recipe : Type := mkRecipe {
  r_output : string; r_input : string; r_scalar : string; r_coeff : V;
  }.

(** [ok = ok && vt.set(...)]: [&&] short-circuits, so once [ok] is false
  the call is not made. *)
Definition and_set (st : bool * VarTransformer.t V) (r : recipe)
  : bool * VarTransformer.t V :=
  if fst st
  then VarTransformer.set (snd st) (r_output r) (r_input r) (r_scalar r) (r_coeff r)
  else st.

Definition and_sets (st : bool * VarTransformer.t V) (rs : list recipe)
  : bool * VarTransformer.t V :=
  fold_left and_set rs st.

Section Recipes.
(** [enth_modele_to_pism] is [E_l] of [getEnthalpyInterval(0, E_s, E_l)];
  [C2K] is the Celsius-to-Kelvin constant (+273.15), defined outside
  the sources.  The OUTPUT recipe for "ice_surface_enth" names
  [enth_model_to_pism] (without the "e"), an identifier the function
  does not declare; it is kept as a separate value. *)
Variables (enth_modele_to_pism enth_model_to_pism C2K : V).
Variable (coupling_type : ModelE_CouplingType).

(** The [ice_input_vt.set] calls, in program order. *)
Definition input_recipes : list recipe :=
  [ mkRecipe MASS_FLUX "lismb" "unit" vone;
    (* enthalpy flux (PISM) = liseb + enth_modele_to_pism * lismb *)
    mkRecipe ENTHALPY_FLUX "liseb" "unit" vone;
    mkRecipe ENTHALPY_FLUX "lismb" "unit" enth_modele_to_pism ]
  ++ match coupling_type with
     | DIRICHLET_BC =>
         [ mkRecipe T "litg2" "unit" vone;
           mkRecipe T "unit" "unit" C2K ]      (* +273.15 *)
     | NEUMANN_BC => []                         (* Nothing for now... *)
     end.

(** The [vt.set] calls of the Ice -> GCM transformer, in program order. *)
Definition output_recipes : list recipe :=
  [ mkRecipe "elev2" "usurf" "unit" vone;
    mkRecipe "elev1" "usurf" "unit" vone;
    (* For specific enthalpy: Enth_e = Enth_p - enth_model_to_pism
       where X_e is ModelE and X_p is PISM *)
    mkRecipe "ice_surface_enth" "ice_surface_enth" "unit" vone;
    mkRecipe "ice_surface_enth" "ice_surface_enth" "unit" (vopp enth_model_to_pism);
    mkRecipe "ice_surface_enth_depth" "ice_surface_enth_depth" "unit" vone;
    mkRecipe "basal_runoff.mass" "basal_runoff.mass" "unit" vone;
    mkRecipe "basal_runoff.enth" "basal_runoff.enth" "unit" vone;
    mkRecipe "basal_runoff.enth" "basal_runoff.enth" "unit" (vopp enth_modele_to_pism);
    mkRecipe "calving.mass" "calving.mass" "unit" vone;
    mkRecipe "calving.enth" "calving.enth" "unit" vone;
    mkRecipe "calving.enth" "calving.enth" "unit" (vopp enth_modele_to_pism);
    mkRecipe "strain_heating" "strain_heating" "unit" vone;
    mkRecipe "epsilon.mass" "epsilon.mass" "unit" vone;
    mkRecipe "epsilon.enth" "epsilon.enth" "unit" vone;
    mkRecipe "epsilon.enth" "epsilon.enth" "unit" (vopp enth_modele_to_pism) ].

(** [CouplingContract &ice_input(contract[IceModel::INPUT])] after its
  [add_field] calls. *)
Definition build_ice_input : outcome CouplingContract.t :=
  c ← add_field4 CouplingContract.new MASS_FLUX "kg m-2 s-1" "ICE"
        "'Surface Mass Balance' over the coupling interval.";
  c ← add_field4 c ENTHALPY_FLUX "W m-2" "ICE"
        "Advective enthalpy associated with land_ice_surface_downward_mass_flux.";
  match coupling_type with
  | DIRICHLET_BC => add_field4 c T "K" "ICE" "surface temperature"
  | NEUMANN_BC =>
      add_field4 c HEAT_FLUX "W m-2" "ICE"
        "Conductive heat between ice sheet and snow/firn model on top of it."
  end.

(** [CouplingContract &ice_output(contract[IceModel::OUTPUT])] after
  its [add_field] calls. *)
Definition build_ice_output : outcome CouplingContract.t :=
  c ← add_field4 CouplingContract.new "usurf" "m" "ICE" "ice upper surface elevation";
  c ← add_field4 c "ice_surface_enth" "J kg-1" "ICE" "";
  c ← add_field4 c "ice_surface_enth_depth" "m" "ICE" "";
  c ← add_field4 c "basal_runoff.mass" "kg m-2 s-1" "ICE" "";
  c ← add_field4 c "basal_runoff.enth" "W m-2" "ICE" "";
  c ← add_field4 c "calving.mass" "kg m-2 s-1" "ICE" "";
  c ← add_field4 c "calving.enth" "W m-2" "ICE" "";
  c ← add_field4 c "strain_heating" "W m-2" "ICE" "";
  c ← add_field4 c "epsilon.mass" "kg m-2 s-1" "ICE" "";
  add_field4 c "epsilon.enth" "W m-2" "ICE" "".

(** [set_names] on the three axes followed by [allocate()]. *)
Definition bind_axes (ins outs scals : CouplingContract.t) : VarTransformer.t V :=
  VarTransformer.allocate
    (VarTransformer.set_names
       (VarTransformer.set_names
          (VarTransformer.set_names VarTransformer.empty
             VarTransformer.INPUTS ins)
          VarTransformer.OUTPUTS outs)
       VarTransformer.SCALARS scals).

(** What the setup leaves in the ice model: [contract[INPUT|OUTPUT]]
  and [var_transformer[INPUT|OUTPUT]]. *)
Record IceModel : Type := mkIceModel {
  contract_INPUT  : CouplingContract.t;
  contract_OUTPUT : CouplingContract.t;
  var_transformer_INPUT  : VarTransformer.t V;
  var_transformer_OUTPUT : VarTransformer.t V;
  }.

(** [void IceModel_PISM::setup_contracts_modele()].  The transfer of
  physical constants into the PISM configuration and the progress
  messages are left out; the contracts, the transformers and the
  [ok] flag are threaded as in the source. *)
Definition setup_contracts_modele (coupler : GCMCoupler) : outcome IceModel :=
  (* ============ GCM -> Ice *)
  ice_input ← build_ice_input;
  let ice_input_vt :=
    bind_axes (gcm_outputs coupler) ice_input (ice_input_scalars coupler) in
  let ok := true in
  let '(ok, ice_input_vt) := and_sets (ok, ice_input_vt) input_recipes in
  (* ============== Ice -> GCM *)
  ice_output ← build_ice_output;
  let vt := bind_axes ice_output (gcm_inputs coupler) (ice_output_scalars coupler) in
  let '(ok, vt) := and_sets (ok, vt) output_recipes in
  (* Catch all our errors at once *)
  if negb ok then Throw
  else Ret (mkIceModel ice_input ice_output ice_input_vt vt).

End Recipes.
End Setup.

(** [GCMCoupler_ModelE] is not among the sources.  For concrete runs we
    use a coupler whose contracts register exactly the names the
    recipes refer to, with empty scalar sets. *)
Definition contract_of_names (names : list string) : outcome CouplingContract.t :=
  foldl (fun oc n => c ← oc; add_field4 c n "1" "ELEVATION" "")
        (Ret CouplingContract.new) names.

Definition example_gcm_outputs : list string := ["lismb"; "liseb"; "litg2"].

Definition example_gcm_inputs : list string :=
  ["elev2"; "elev1"; "ice_surface_enth"; "ice_surface_enth_depth";
   "basal_runoff.mass"; "basal_runoff.enth"; "calving.mass"; "calving.enth";
   "strain_heating"; "epsilon.mass"; "epsilon.enth"].

Definition example_coupler : outcome GCMCoupler :=
  go ← contract_of_names example_gcm_outputs;
  gi ← contract_of_names example_gcm_inputs;
  Ret (mkCoupler go gi CouplingContract.new CouplingContract.new).

End ModelePism.

(* ===================================================================== *)
(** * Sparse containers and the regridding engine (MatrixMaker.cpp) *)
(* ===================================================================== *)

Module Regrid.
Section Engine.
Context {V : Type} `{Arith V}.

(** ** [giss::SparseAccumulator<int,double>] *)

(** Modelled from the spec: [giss::SparseAccumulator] is not among the
  sources.  It is an unordered map from index to accumulated value
  ("the unordered_map sums them automatically", as compute_fhc notes):
  [add] stores the value under a fresh index and sums it into an
  existing entry. *)
Definition acc_add (m : gmap Z V) (k : Z) (v : V) : gmap Z V :=
  partial_alter
    (fun o => Some match o with None => v | Some x => vadd x v end) k m.

(** Modelled from the spec: [area1_m[i1]] on the accumulator; as for
  [std::unordered_map::operator[]] an absent index reads as a
  value-initialised (zero) entry.  The statements below only rely on
  reads of indices that are present. *)
Definition acc_get (m : gmap Z V) (k : Z) : V := default vzero (m !! k).

(** Iteration [for (auto ii = m.begin(); ii != m.end(); ++ii)]: the
  entries in the container's own (unspecified but fixed) order. *)
Definition acc_entries (m : gmap Z V) : list (Z * V) := map_to_list m.

(** ** [giss::CooVector<IndexT,double>] *)

(** Modelled from the spec: [giss::CooVector] is not among the sources.
  It is a coordinate list of (index, value) pairs; [add] appends an
  entry, [clear] empties the list and [sort] orders the entries
  (by index, then by value, the order of [std::pair]). *)
Definition coo_add {K} (v : list (K * V)) (k : K) (x : V) : list (K * V) :=
  v ++ [(k, x)].

(** Modelled from the spec: the order [sort] uses on entries, that of
  [std::pair<IndexT,double>] (CooVector is not among the sources). *)
Definition entry_ltb {K} (kltb : K -> K -> bool) (a b : K * V) : bool :=
  kltb a.1 b.1 || (negb (kltb b.1 a.1) && vltb a.2 b.2).

Fixpoint sort_insert {K} (kltb : K -> K -> bool) (e : K * V) (v : list (K * V))
  : list (K * V) :=
  match v with
  | [] => [e]
  | e' :: v' =>
      if entry_ltb kltb e e' then e :: e' :: v'
      else e' :: sort_insert kltb e v'
  end.

(** Modelled from the spec: [sort()] of a coordinate list (CooVector is
  not among the sources). *)
Definition coo_sort {K} (kltb : K -> K -> bool) (v : list (K * V)) : list (K * V) :=
  foldr (sort_insert kltb) [] v.

(** The value a coordinate list denotes at an index: the entries with
  that index summed ("duplicates summed on finalize"). *)
Fixpoint coo_get {K} `{EqDecision K} (v : list (K * V)) (k : K) : V :=
  match v with
  | [] => vzero
  | (k', x) :: v' =>
      if decide (k' = k) then vadd x (coo_get v' k) else coo_get v' k
  end.

Definition pair_ltb (a b : Z * Z) : bool :=
  (a.1 <? b.1) || ((a.1 =? b.1) && (a.2 <? b.2)).

(** ** [giss::VectorSparseMatrix] *)

(** Coordinate-list matrix: (row, column, value) triples. *)
Definition matrix : Type := list (Z * Z * V).

(** Modelled from the spec: [multiply(A, B)], the sparse matrix product
  (not among the sources): one entry per matching pair of entries,
  duplicates left for [sum_duplicates]. *)
Definition multiply (a b : matrix) : matrix :=
  '(i, j, x) ← a;
  '(j', k, y) ← b;
  if decide (j = j') then [(i, k, vmul x y)] else [].

(** Modelled from the spec: [divide_by(mat, area, area_inv)] (not among
  the sources) divides every entry by the accumulated area of its row
  and fills [area_inv] with the reciprocal areas. *)
Definition divide_by (mat : matrix) (area : gmap Z V) : matrix * gmap Z V :=
  (map (fun '(i, j, x) => (i, j, vdiv x (acc_get area i))) mat,
   (fun a => vdiv vone a) <$> area).

Fixpoint add_entry (i j : Z) (x : V) (m : matrix) : matrix :=
  match m with
  | [] => [(i, j, x)]
  | (i', j', y) :: m' =>
      if (i =? i') && (j =? j') then (i', j', vadd y x) :: m'
      else (i', j', y) :: add_entry i j x m'
  end.

(** Modelled from the spec: [sum_duplicates()] (not among the sources)
  sums the entries that share a coordinate. *)
Definition sum_duplicates (m : matrix) : matrix :=
  fold_left (fun acc '(i, j, x) => add_entry i j x acc) m [].

(** ** Height-class indexing and ice sheets *)

(** [HCIndex] (HCIndex.hpp is not among the sources): the coding of a
  (grid cell, height class) pair as one integer index. *)
Record HCIndex : Type := mkHCIndex {
  ik_to_index : Z -> Z -> Z;
  index_to_ik : Z -> Z * Z;
  }.

(** The usual layout for [n1] grid cells: [index = hc * n1 + i1]. *)
Definition hc_index_of (n1 : Z) : HCIndex :=
  {| ik_to_index := fun i k => k * n1 + i;
     index_to_ik := fun ix => let k := ix ÷ n1 in (ix - k * n1, k) |}.

(** What the engine reads of an [IceSheet] (the class is not among the
  sources).  [overlaps] lists the ice-covered overlap areas, each with
  the GCM cell and the height class it falls in; [area1 i1] is
  [area_of_proj_polygon] of GCM cell [i1] in this sheet's projection. *)
Record IceSheet : Type := mkIceSheet {
  sheet_name : string;
  overlaps   : list (Z * Z * V);
  area1      : Z -> V;
  hp_to_ice  : matrix;
  ice_to_hc  : gmap Z V -> matrix * gmap Z V;
  }.

(** Modelled from the spec: [IceSheet::accum_areas(area1_m, area1_m_hc)]
  (not among the sources) accumulates every ice-covered overlap area
  into the per-cell accumulator and into the per-(cell, height class)
  accumulator. *)
Definition accum_areas (hci : HCIndex) (sheet : IceSheet)
    (accs : gmap Z V * gmap Z V) : gmap Z V * gmap Z V :=
  fold_left
    (fun '(area1_m, area1_m_hc) '(i1, hc, a) =>
       (acc_add area1_m i1 a, acc_add area1_m_hc (ik_to_index hci i1 hc) a))
    (overlaps sheet) accs.

(** [class MatrixMaker]: the ice sheets in iteration order and the
  height-class indexing built from [n1()]. *)
Record MatrixMaker : Type := mkMatrixMaker {
  sheets   : list IceSheet;
  hc_index : HCIndex;
  }.

(** ** [MatrixMaker::compute_fhc] *)

(** State of the loop over the ice sheets. *)
Record fhc_state : Type := mkFhcState {
  area1_m    : gmap Z V;
  area1_m_hc : gmap Z V;
  fgice1     : list (Z * V);
  }.

(** Body of [for (auto sheet = sheets.begin(); ...)]. *)
Definition fhc_sheet (hci : HCIndex) (st : fhc_state) (sheet : IceSheet)
  : fhc_state :=
  (* Local area1_m just for this ice sheet *)
  let '(larea1_m, area1_m_hc') :=
    accum_areas hci sheet (∅, area1_m_hc st) in
  (* Use the local area1_m to contribute to fgice1 *)
  let fgice1' :=
    fold_left
      (fun fg '(i1, ice_covered_area) =>
         coo_add fg i1 (vdiv ice_covered_area (area1 sheet i1)))
      (acc_entries larea1_m) (fgice1 st) in
  (* Accumulate to global area1_m *)
  let area1_m' :=
    fold_left (fun am '(i1, a) => acc_add am i1 a)
      (acc_entries larea1_m) (area1_m st) in
  {| area1_m := area1_m'; area1_m_hc := area1_m_hc'; fgice1 := fgice1' |}.

(** The accumulation over all ice sheets, before sorting. *)
Definition accumulate (mm : MatrixMaker) : fhc_state :=
  fold_left (fhc_sheet (hc_index mm)) (sheets mm)
    {| area1_m := ∅; area1_m_hc := ∅; fgice1 := [] |}.

(** [void MatrixMaker::compute_fhc(fhc1h, fgice1)]; returns
  [(fhc1h, fgice1)]. *)
Definition compute_fhc (mm : MatrixMaker)
  : list (Z * Z * V) * list (Z * V) :=
  let st := accumulate mm in
  let fgice1 := coo_sort Z.ltb (fgice1 st) in
  (* Compute fhc1h.  Unlike fgice1, this does NOT need to be done
     separately for each ice sheet. *)
  let fhc1h :=
    fold_left
      (fun fhc '(i1hc, a) =>
         (* Separate out into grid cell and height class *)
         let '(i1, hc) := index_to_ik (hc_index mm) i1hc in
         coo_add fhc (i1, hc) (vdiv a (acc_get (area1_m st) i1)))
      (acc_entries (area1_m_hc st)) [] in
  (coo_sort pair_ltb fhc1h, fgice1).

(** ** [MatrixMaker::hp_to_hc] *)

(** Body of the loop: the product [multiply(ice_to_hc, hp_to_ice)] is
  appended to [ret], with [ice_to_hc] accumulating into [area1_m_hc]. *)
Definition hp_to_hc_sheet (st : matrix * gmap Z V) (sheet : IceSheet)
  : matrix * gmap Z V :=
  let '(ret, area1_m_hc) := st in
  let '(i2hc, area1_m_hc') := ice_to_hc sheet area1_m_hc in
  (ret ++ multiply i2hc (hp_to_ice sheet), area1_m_hc').

(** [std::unique_ptr<giss::VectorSparseMatrix> MatrixMaker::hp_to_hc()]
  (the debugging output to hp2hc.nc is left out). *)
Definition hp_to_hc (mm : MatrixMaker) : matrix :=
  let '(ret, area1_m_hc) := fold_left hp_to_hc_sheet (sheets mm) ([], ∅) in
  let '(ret, area1_m_hc_inv) := divide_by ret area1_m_hc in
  sum_duplicates ret.

(** ** The matrix composition as the specification words it *)

(** Per-sheet products [ice_to_hc * hp_to_ice], sheet by sheet, with the
  per-(cell, height class) area accumulated along the way. *)
Fixpoint sheet_products (ss : list IceSheet) (area : gmap Z V)
  : list matrix * gmap Z V :=
  match ss with
  | [] => ([], area)
  | s :: ss' =>
      let '(i2hc, area') := ice_to_hc s area in
      let '(ps, area'') := sheet_products ss' area' in
      (multiply i2hc (hp_to_ice s) :: ps, area'')
  end.

(** Append all per-sheet products into one combined matrix, divide every
  entry by the accumulated area, then sum duplicate coordinates. *)
Definition hp_to_hc_spec (mm : MatrixMaker) : matrix :=
  let '(products, area) := sheet_products (sheets mm) ∅ in
  let combined := concat products in
  let divided := (divide_by combined area).1 in
  sum_duplicates divided.

(** The reverse order, for comparison: duplicates summed first, the
  divide applied afterwards. *)
Definition hp_to_hc_sum_first (mm : MatrixMaker) : matrix :=
  let '(products, area) := sheet_products (sheets mm) ∅ in
  (divide_by (sum_duplicates (concat products)) area).1.

(** ** Quantities used to state the properties of [compute_fhc] *)

(** Ice-covered area of a sheet inside GCM cell [i1]. *)
Fixpoint ice_area (ov : list (Z * Z * V)) (i1 : Z) : V :=
  match ov with
  | [] => vzero
  | (i1', _, a) :: ov' =>
      if decide (i1' = i1) then vadd a (ice_area ov' i1) else ice_area ov' i1
  end.

(** A sheet whose overlap areas are all halved. *)
Definition halve_areas (two : V) (ov : list (Z * Z * V)) : list (Z * Z * V) :=
  map (fun '(i1, hc, a) => (i1, hc, vdiv a two)) ov.

(** The same sheet with its overlap contributions replaced. *)
Definition with_overlaps (s : IceSheet) (ov : list (Z * Z * V)) : IceSheet :=
  {| sheet_name := sheet_name s; overlaps := ov; area1 := area1 s;
     hp_to_ice := hp_to_ice s; ice_to_hc := ice_to_hc s |}.

End Engine.
Arguments matrix V : clear implicits.
Arguments IceSheet V : clear implicits.
Arguments MatrixMaker V : clear implicits.
Arguments fhc_state V : clear implicits.
End Regrid.

(* ===================================================================== *)
(** * The merged-TOPOO batch tool (make_merged_topoo.cpp) *)
(* ===================================================================== *)

Module MergedTopoo.

(** How a run of [main] ends: [return status], or inside the error
    callback [icebin_error]. *)
Inductive ending : Type :=
  | Returned (status : Z)
  | Aborted (code : Z) (message : string).

(** What a run leaves behind: how it ended, the lines written to stderr
    by [main] itself, the messages handed to the error callback, the
    final contents of [errors], and whether the output file was
    written. *)
Record run : Type := mkRun {
    end_of_run   : ending;
    stderr_lines : list string;
    callback_messages : list string;
    errors       : list string;
    output_written : bool;
  }.

(** [int colon = xfname.find(':')]: the position, or [npos] converted
    to [int], which is -1. *)
Definition find_colon (xfname : string) : Z :=
  match String.index 0 ":" xfname with
  | Some n => Z.of_nat n
  | None => -1
  end.

(** [xfname.substr(0, colon)]; a negative [colon] converts to a count
    beyond the end, which takes the whole string. *)
Definition spec_type (xfname : string) (colon : Z) : string :=
  if colon <? 0 then xfname
  else String.substring 0 (Z.to_nat colon) xfname.

(** [xfname.substr(colon+1)]. *)
Definition spec_file (xfname : string) (colon : Z) : string :=
  String.substring (Z.to_nat (colon + 1)) (String.length xfname) xfname.

Definition bad_format_message (xfname : string) : string :=
  "elevmask spec '" +:+ xfname +:+ "' must be in the format of type:fname".

Definition unrecognized_message (stype : string) : string :=
  "Unrecognized elevmask spec type " +:+ stype.

Section Main.
(** [icebin_error] is a function pointer defined outside the sources.
    [callback_returns] says whether a call through it comes back to
    the caller ([true]) or terminates the process ([false]). *)
Variable callback_returns : bool.

(** State of the loop reading the elevmasks: messages handed to the
    callback so far and the files read with [read_elevmask_pism]. *)
Definition loop_state : Type := list string * list string.

(** A call through the pointer [icebin_error], with code and message. *)
Definition icebin_error (code : Z) (message : string) (st : loop_state)
  : loop_state + (Z * string * loop_state) :=
  if callback_returns then inl (st.1 ++ [message], st.2)
  else inr (code, message, st).

(** Body of [for (auto const &xfname : args.elevmask_xfnames)]. *)
Definition read_elevmask (st : loop_state) (xfname : string)
  : loop_state + (Z * string * loop_state) :=
  (* Parse each spec of the form <format>:<fname> *)
  let colon := find_colon xfname in
  match (if colon <? 0
         then icebin_error (-1) (bad_format_message xfname) st
         else inl st) with
  | inr stop => inr stop
  | inl st =>
      let stype := spec_type xfname colon in
      let spec := spec_file xfname colon in
      (* Dispatch to the read method, based on format. *)
      if String.eqb stype "pism"
      then inl (st.1, st.2 ++ [spec])      (* read_elevmask_pism(spec, ...) *)
      else icebin_error (-1) (unrecognized_message stype) st
  end.

Fixpoint read_elevmasks (st : loop_state) (xfnames : list string)
  : loop_state + (Z * string * loop_state) :=
  match xfnames with
  | [] => inl st
  | xfname :: rest =>
      match read_elevmask st xfname with
      | inr stop => inr stop
      | inl st' => read_elevmasks st' rest
      end
  end.

(** [int main(int argc, char **argv)] after the command line has been
    parsed and the input files read.  [merge_topoO] and
    [compute_EOpvAOp_merged] are outside the sources; all [main]
    observes of them here is the sanity-check errors each appends to
    [errors]. *)
Definition main (elevmask_xfnames : list string)
    (merge_topoO_errors compute_EOpvAOp_merged_errors : list string) : run :=
  match read_elevmasks ([], []) elevmask_xfnames with
  | inr (code, message, st) =>
      {| end_of_run := Aborted code message;
         stderr_lines := [];
         callback_messages := st.1 ++ [message];
         errors := [];
         output_written := false |}
  | inl st =>
      let errors : list string := [] in
      let errors := errors ++ merge_topoO_errors in
      let errors := errors ++ compute_EOpvAOp_merged_errors in
      (* Print sanity check errors to STDERR *)
      let stderr_lines := map (fun err => "ERROR: " +:+ err +:+ nl) errors in
      (* ================== Write output *)
      {| end_of_run :=
           if 0 <? Z.of_nat (length errors) then Returned (-1) else Returned 0;
         stderr_lines := stderr_lines;
         callback_messages := st.1;
         errors := errors;
         output_written := true |}
  end.
End Main.

End MergedTopoo.

(* ===================================================================== *)
(** * Definitions used in the statements *)
(* ===================================================================== *)

Section ContractDefs.
Import CouplingContract.



End ContractDefs.

Definition two_field_contract : CouplingContract.t :=
  {| CouplingContract._ix_to_field :=
       [CouplingContract.mkCoupledField "lismb" 0%float "kg m-2 s-1" 3 "";
        CouplingContract.mkCoupledField "unit" 0%float "" 0 ""];
     CouplingContract._name_to_ix := <["lismb" := 0]> (<["unit" := 1]> ∅);
     CouplingContract._size_nounit := 1;
     CouplingContract._unit_ix := 1 |}.

Definition lismb_field : CouplingContract.CoupledField :=
  CouplingContract.mkCoupledField "lismb" 0%float "kg m-2 s-1" 3 "Surface mass balance".

Definition unit_field : CouplingContract.CoupledField :=
  CouplingContract.mkCoupledField "unit" 0%float "" 0 "Dimensionless identity".

Definition contract_after (c : CouplingContract.t)
    (cf : CouplingContract.CoupledField) : CouplingContract.t :=
  match CouplingContract.add_field_rv c cf with
  | Ret (_, c') => c'
  | _ => c
  end.

Definition lismb_contract : CouplingContract.t :=
  contract_after CouplingContract.new lismb_field.

Definition lismb_unit_contract : CouplingContract.t :=
  contract_after lismb_contract unit_field.

Section MergedTopooDefs.
Import MergedTopoo.

(** An elevmask spec the loop accepts: it has a colon and its format
    is "pism". *)
Definition well_formed (xfname : string) : bool :=
  (0 <=? find_colon xfname)
  && String.eqb (spec_type xfname (find_colon xfname)) "pism".

Definition report (errs : list string) : list string :=
  map (fun err => "ERROR: " +:+ err +:+ nl) errs.

End MergedTopooDefs.

Section TransformerDefs.
Context {V : Type} `{Arith V}.
Import VarTransformer ModelePism.

(** Whether the three names of a recipe resolve against the axes of a
    transformer. *)
Definition resolves (vt : VarTransformer.t V) (r : recipe (V:=V)) : bool :=
  match resolve false (outputs vt) (r_output r),
        resolve true (inputs vt) (r_input r),
        resolve true (scalars vt) (r_scalar r) with
  | Some _, Some _, Some _ => true
  | _, _, _ => false
  end.

Definition same_axes (a b : VarTransformer.t V) : Prop :=
  inputs a = inputs b /\ outputs a = outputs b /\ scalars a = scalars b.

End TransformerDefs.

Definition returned {A} (dflt : A) (o : outcome A) : A :=
  match o with Ret a => a | _ => dflt end.

Definition is_ret {A} (o : outcome A) : bool :=
  match o with Ret _ => true | _ => false end.

Definition empty_coupler : ModelePism.GCMCoupler :=
  ModelePism.mkCoupler CouplingContract.new CouplingContract.new
    CouplingContract.new CouplingContract.new.

(** The coupler whose contracts register the names the recipes use. *)
Definition modele_coupler : ModelePism.GCMCoupler :=
  returned empty_coupler ModelePism.example_coupler.

(** [enth_modele_to_pism == 437000 J/kg], as the source notes. *)
Definition E_l : float := 437000%float.

Definition C2K : float := 273.15%float.

(** The contracts the setup builds for the ice model. *)
Definition dirichlet_ice_input : CouplingContract.t :=
  returned CouplingContract.new
    (ModelePism.build_ice_input ModelePism.DIRICHLET_BC).

Definition pism_ice_output : CouplingContract.t :=
  returned CouplingContract.new ModelePism.build_ice_output.

Definition no_model {V : Type} `{Arith V} : ModelePism.IceModel (V:=V) :=
  ModelePism.mkIceModel CouplingContract.new CouplingContract.new
    VarTransformer.empty VarTransformer.empty.

(** The ice model state left by the setup for Dirichlet coupling on the
    ModelE coupler. *)
Definition modele_model : ModelePism.IceModel (V:=float) :=
  returned no_model
    (ModelePism.setup_contracts_modele E_l E_l C2K ModelePism.DIRICHLET_BC
       modele_coupler).

(** PISM output with [ice_surface_enth = Enth_p] and every other field 0
    (the fields in the order of the ice output contract). *)
Definition pism_output (Enth_p : float) : list float :=
  [0; Enth_p; 0; 0; 0; 0; 0; 0; 0; 0]%float.

(** GCM output with [litg2 = t] and no mass or energy balance
    (fields lismb, liseb, litg2). *)
Definition gcm_output_litg2 (t : float) : list float := [0; 0; t]%float.

(** The end-to-end scenario of the specification: the GCM output
    contract offers "litg"; the ice input contract has mass_flux
    (default 0, kg m-2 s-1) and temperature (default 273.15, K). *)
Definition scenario_gcm_outputs : CouplingContract.t :=
  returned CouplingContract.new (ModelePism.contract_of_names ["litg"]).

Definition scenario_ice_input : CouplingContract.t :=
  contract_after
    (contract_after CouplingContract.new
       (CouplingContract.mkCoupledField "mass_flux" 0%float "kg m-2 s-1" 2 ""))
    (CouplingContract.mkCoupledField "temperature" 273.15%float "K" 2 "").

Definition scenario_recipes : list (ModelePism.recipe (V:=float)) :=
  [ ModelePism.mkRecipe "temperature" "litg" "unit" 1%float;
    ModelePism.mkRecipe "temperature" "unit" "unit" 273.15%float ].

Definition scenario_transformer : bool * VarTransformer.t float :=
  ModelePism.and_sets
    (true, ModelePism.bind_axes scenario_gcm_outputs scenario_ice_input
             CouplingContract.new)
    scenario_recipes.

Section EngineDefs.
Context {V : Type} `{Arith V}.
Import Regrid.

(** The weight entries before sorting. *)
Definition fhc_entry (hci : HCIndex) (am : gmap Z V) (e : Z * V) : Z * Z * V :=
  let '(i1, hc) := index_to_ik hci e.1 in
  ((i1, hc), vdiv e.2 (acc_get am i1)).

(** The values a coordinate-list matrix holds at coordinate [(i, j)], in
    the order of its entries. *)
Definition entries_at (m : matrix V) (i j : Z) : list V :=
  omap (fun e : Z * Z * V =>
          if (i =? e.1.1) && (j =? e.1.2) then Some e.2 else None) m.

(** The one value left at a coordinate when every entry is first
    divided by [a] and the quotients are then summed in order. *)
Definition quotients_summed (a : V) (xs : list V) : list V :=
  match xs with
  | [] => []
  | x :: l => [fold_left (fun s y => vadd s (vdiv y a)) l (vdiv x a)]
  end.

(** The one value left when the entries are summed first and the sum is
    divided by [a]. *)
Definition sum_divided (a : V) (xs : list V) : list V :=
  match xs with
  | [] => []
  | x :: l => [vdiv (fold_left vadd l x) a]
  end.

(** The per-sheet products of a maker appended into one matrix, and the
    area its sheets accumulate. *)
Definition combined_products (mm : MatrixMaker V) : matrix V :=
  concat (sheet_products (sheets mm) ∅).1.

Definition accumulated_area (mm : MatrixMaker V) : gmap Z V :=
  (sheet_products (sheets mm) ∅).2.

(** The area accumulated by the sheets that come before a sheet. *)
Definition area_before (pre : list (IceSheet V)) : gmap Z V :=
  (sheet_products pre ∅).2.

End EngineDefs.

(** A sheet whose product [ice_to_hc * hp_to_ice] has two entries at
  coordinate (0, 0), with values 1 and 2, and whose height class 0
  accumulates area 5. *)
Definition duplicate_entries_sheet : Regrid.IceSheet float :=
  {| Regrid.sheet_name := "greenland";
     Regrid.overlaps := [];
     Regrid.area1 := fun _ => 5%float;
     Regrid.hp_to_ice := [(0, 0, 1%float); (1, 0, 1%float)];
     Regrid.ice_to_hc := fun area =>
       ([(0, 0, 1%float); (0, 1, 2%float)], Regrid.acc_add area 0 5%float) |}.

Definition duplicate_entries_maker : Regrid.MatrixMaker float :=
  {| Regrid.sheets := [duplicate_entries_sheet];
     Regrid.hc_index := Regrid.hc_index_of 2 |}.

(** A sheet with one exchange cell of zero ice-covered area. *)
Definition zero_area_sheet : Regrid.IceSheet float :=
  {| Regrid.sheet_name := "greenland";
     Regrid.overlaps := [(0, 0, 0%float)];
     Regrid.area1 := fun _ => 2%float;
     Regrid.hp_to_ice := [];
     Regrid.ice_to_hc := fun area => ([], area) |}.

Definition zero_area_maker : Regrid.MatrixMaker float :=
  {| Regrid.sheets := [zero_area_sheet];
     Regrid.hc_index := Regrid.hc_index_of 1 |}.

(** A [double] that is a zero of either sign. *)
Definition is_zero (x : float) : Prop := x = 0%float \/ x = (-0)%float.

Section ExactDefs.
Import Regrid.
Local Open Scope Qc_scope.

(** Folding a list of (index, value) contributions into an accumulator. *)
Definition acc_fold (m : gmap Z Qc) (l : list (Z * Qc)) : gmap Z Qc :=
  fold_left (fun am '(k, v) => acc_add am k v) l m.

Definition has_key (l : list (Z * Qc)) (k : Z) : bool :=
  existsb (fun e => bool_decide (e.1 = k)) l.

(** The entry an accumulator holds after contributions summing to [t]
    (of which there were some iff [b]) were added to entry [o]. *)
Definition combine (o : option Qc) (b : bool) (t : Qc) : option Qc :=
  match o with
  | Some y => Some (y + t)
  | None => if b then Some t else None
  end.

(** Entries with every value halved. *)
Definition half_entries (l : list (Z * Qc)) : list (Z * Qc) :=
  map (fun e => (e.1, e.2 / (1 + 1))) l.

(** The contributions of a sheet to the two accumulators. *)
Definition cell_entries (ov : list (Z * Z * Qc)) : list (Z * Qc) :=
  map (fun '(i1, hc, a) => (i1, a)) ov.

Definition hc_entries (hci : HCIndex) (ov : list (Z * Z * Qc)) : list (Z * Qc) :=
  map (fun '(i1, hc, a) => (ik_to_index hci i1 hc, a)) ov.

(** The fraction entries one sheet appends to [fgice1]. *)
Definition fraction_entries (s : IceSheet Qc) (larea1_m : gmap Z Qc)
  : list (Z * Qc) :=
  map (fun e => (e.1, e.2 / area1 s e.1)) (acc_entries larea1_m).

(** A sheet's share of a cell: its ice-covered area in the cell over
    the cell's area in the sheet's own projection. *)
Definition sheet_fraction (s : IceSheet Qc) (i1 : Z) : Qc :=
  ice_area (overlaps s) i1 / area1 s i1.

(** Sum of the per-sheet fractions of a cell. *)
Definition sum_fractions (ss : list (IceSheet Qc)) (i1 : Z) : Qc :=
  foldr (fun s acc => sheet_fraction s i1 + acc) 0 ss.

(** Total ice-covered area of all sheets inside a cell. *)
Definition total_ice_area (ss : list (IceSheet Qc)) (i1 : Z) : Qc :=
  foldr (fun s acc => ice_area (overlaps s) i1 + acc) 0 ss.

End ExactDefs.

(** A sheet with the given overlap areas whose projection gives every
    GCM cell the area [cell_area]. *)
Definition sheet_of (nm : string) (ov : list (Z * Z * float)) (cell_area : float)
  : Regrid.IceSheet float :=
  {| Regrid.sheet_name := nm;
     Regrid.overlaps := ov;
     Regrid.area1 := fun _ => cell_area;
     Regrid.hp_to_ice := [];
     Regrid.ice_to_hc := fun area => ([], area) |}.

(** Two sheets over the same GCM cell 0, each covering area 1, whose
    projections give the cell the areas 2 and 4. *)
Definition two_projections : Regrid.MatrixMaker float :=
  {| Regrid.sheets := [sheet_of "greenland" [(0, 0, 1%float)] 2%float;
                       sheet_of "antarctica" [(0, 1, 1%float)] 4%float];
     Regrid.hc_index := Regrid.hc_index_of 1 |}.

(** Two sheets covering areas 1 and 2 of cell 0, both projecting the
    cell to area 5. *)
Definition one_projection : Regrid.MatrixMaker float :=
  {| Regrid.sheets := [sheet_of "greenland" [(0, 0, 1%float)] 5%float;
                       sheet_of "antarctica" [(0, 1, 2%float)] 5%float];
     Regrid.hc_index := Regrid.hc_index_of 1 |}.

(** Sheets in exact arithmetic, projecting every cell to area 2. *)
Definition exact_sheet (ov : list (Z * Z * Qc)) : Regrid.IceSheet Qc :=
  {| Regrid.sheet_name := "sheet";
     Regrid.overlaps := ov;
     Regrid.area1 := fun _ => (1 + 1)%Qc;
     Regrid.hp_to_ice := [];
     Regrid.ice_to_hc := fun area => ([], area) |}.

Definition exact_first : Regrid.IceSheet Qc :=
  exact_sheet [(0, 0, 1%Qc); (0, 1, 1%Qc)].

Definition exact_second : Regrid.IceSheet Qc :=
  exact_sheet [(1, 0, 1%Qc)].


(* ===================================================================== *)
(** * The ModelE grid domain (ModelEDomain.hpp) *)
(* ===================================================================== *)

Module ModelEDomain.

(** Largest and smallest value of a C++ [int]. *)
Definition INT_MAX : Z := 2147483647.
Definition INT_MIN : Z := -2147483648.

(** Whether an integer is a value of type [int]. *)
Definition is_int (z : Z) : bool := (INT_MIN <=? z) && (z <=? INT_MAX).

(** The [int] an arithmetic operation leaves when its exact result is
    [z]: the result modulo [2^32], as the two's complement machines the
    program runs on compute it. *)
Definition wrap (z : Z) : Z := (z + 2 ^ 31) mod 2 ^ 32 - 2 ^ 31.

(** [class ModelEDomain : public GridDomain]: the global grid size and
    the bounds of the local domain and of its halo. *)
Record t : Type := mk {
  im : Z; jm : Z;
  i0h_f : Z; i1h_f : Z; j0h_f : Z; j1h_f : Z;
  i0_f : Z; i1_f : Z; j0_f : Z; j1_f : Z;
  j0s_f : Z; j1s_f : Z;
}.

(** [void global_to_local(int gindex_c, int *lindex)]:
    [j_c = gindex_c / im; i_c = gindex_c - im * j_c;
     lindex[0] = i_c + 1; lindex[1] = j_c + 1].
    [gindex_c] and [im] are [int]s: there is no call with other values.
    Integer division truncates; a division by [im = 0], or of [INT_MIN]
    by -1, traps and gives no result.  Every other operation is an [int]
    operation and wraps around, so that for [im = 1] the row of
    [gindex_c = INT_MAX] comes out as [INT_MIN]. *)
Definition global_to_local (d : t) (gindex_c : Z) : option (Z * Z) :=
  if negb (is_int (im d) && is_int gindex_c) then None
  else if (im d =? 0) || ((gindex_c =? INT_MIN) && (im d =? -1)) then None
  else
    (* Decompose index into i & j (zero-based) *)
    let j_c := gindex_c ÷ im d in
    let i_c := wrap (gindex_c - wrap (im d * j_c)) in
    (* Convert to 1-based indexing *)
    Some (wrap (i_c + 1), wrap (j_c + 1)).

(** [bool in_domain(int *lindex)
      { return (lindex[0] >= j0_f) && (lindex[1] <= j1_f); }] *)
Definition in_domain (d : t) (lindex : Z * Z) : bool :=
  (j0_f d <=? lindex.1) && (lindex.2 <=? j1_f d).

(** [bool in_halo(int *lindex)
      { return (lindex[0] >= j0h_f) && (lindex[1] <= j1h_f); }] *)
Definition in_halo (d : t) (lindex : Z * Z) : bool :=
  (j0h_f d <=? lindex.1) && (lindex.2 <=? j1h_f d).

(** The cell with 1-based indices [(i, j)] as a global 0-based index,
    row by row. *)
Definition global_index (d : t) (lindex : Z * Z) : Z :=
  (lindex.2 - 1) * im d + (lindex.1 - 1).

End ModelEDomain.

(* ===================================================================== *)
(** * Ice sheet names and registration (MatrixMaker.cpp) *)
(* ===================================================================== *)

Module SheetNames.

(** A [std::stringstream] being read: the characters not yet extracted
    and whether the stream is still [good()]. *)
Record sstream : Type := mkStream {
  buffer : string;
  good : bool;
}.

(** The scan of [getline(ss, substr, ',')]: the characters before the
    first comma, and what follows the comma ([None] when the end of the
    input is reached first). *)
Fixpoint getline_scan (s : string) : string * option string :=
  match s with
  | EmptyString => (EmptyString, None)
  | String c s' =>
      if Ascii.eqb c ","%char then (EmptyString, Some s')
      else let '(tok, rest) := getline_scan s' in (String c tok, rest)
  end.

(** [getline(ss, substr, ',')]: the delimiter is extracted and dropped;
    reaching the end of the input sets [eofbit], after which the stream
    is no longer good. *)
Definition getline (ss : sstream) : string * sstream :=
  match getline_scan (buffer ss) with
  | (substr, Some rest) => (substr, {| buffer := rest; good := true |})
  | (substr, None) => (substr, {| buffer := EmptyString; good := false |})
  end.

(** [while (ss.good()) { getline(ss, substr, ','); result.push_back(substr); }]
    with a bound on the number of iterations ([None] when it is reached). *)
Fixpoint parse_loop (fuel : nat) (ss : sstream) (result : list string)
  : option (list string) :=
  match fuel with
  | O => None
  | S fuel' =>
      if good ss
      then let '(substr, ss') := getline ss in
           parse_loop fuel' ss' (result ++ [substr])
      else Some result
  end.

(** [static std::vector<std::string> parse_comma_list(std::string list)]. *)
Definition parse_comma_list (fuel : nat) (names : string) : option (list string) :=
  parse_loop fuel {| buffer := names; good := true |} [].

(** The loop of [MatrixMaker::netcdf_define] that builds the
    "sheetnames" attribute, entered at a sheet with [rest] still to come:
    [sheet_names.append(sheet->name); ++sheet;
     if (sheet == sheets.end()) break; sheet_names.append(",")]. *)
Fixpoint sheet_names_loop (sheet_names : string) (sheet : string)
    (rest : list string) : string :=
  let sheet_names := sheet_names +:+ sheet in
  match rest with
  | [] => sheet_names
  | next :: rest' => sheet_names_loop (sheet_names +:+ ",") next rest'
  end.

(** The attribute written for the sheets' names.  The loop reads the
    first sheet before testing for the end, so it has no defined result
    on an empty collection. *)
Definition sheet_names (names : list string) : option string :=
  match names with
  | [] => None
  | sheet :: rest => Some (sheet_names_loop EmptyString sheet rest)
  end.

(** Number of commas in a string. *)
Fixpoint commas (s : string) : nat :=
  match s with
  | EmptyString => O
  | String c s' => if Ascii.eqb c ","%char then S (commas s') else commas s'
  end.

(** The pieces of a string between its commas: the first, then the
    others. *)
Fixpoint pieces (s : string) : string * list string :=
  match s with
  | EmptyString => (EmptyString, [])
  | String c s' =>
      let '(h, t) := pieces s' in
      if Ascii.eqb c ","%char then (EmptyString, h :: t) else (String c h, t)
  end.

(** Names joined by commas. *)
Fixpoint join (h : string) (t : list string) : string :=
  match t with
  | [] => h
  | n :: t' => h +:+ "," +:+ join n t'
  end.

End SheetNames.

(* ===================================================================== *)
(** * Registration of ice sheets (MatrixMaker.cpp) *)
(* ===================================================================== *)

Module Registry.
Section Sheets.
Context {V : Type} `{Arith V}.

(** A C++ [int] after an arithmetic operation, on two's complement
    hardware. *)
Definition int_wrap (z : Z) : Z := (z + 2 ^ 31) mod 2 ^ 32 - 2 ^ 31.

(** An [IceSheet] once [add_ice_sheet] has set its [index] (its back
    pointer [gcm] to the maker is left out). *)
Record registered : Type := mkRegistered {
  sheet : Regrid.IceSheet V;
  index : Z;
}.

(** The members of [MatrixMaker] that [add_ice_sheet] and [clear] touch.
    [sheets] is a [giss::Dict] keyed by name, which is not among the
    sources: it is kept as the sequence of (name, sheet) insertions. *)
Record maker : Type := mkMaker {
  sheets : list (string * registered);
  sheets_by_id : gmap Z registered;      (* std::map<int, IceSheet *> *)
  _next_sheet_index : Z;
}.

(** [std::map::insert(std::make_pair(k, v))]: an existing entry is kept. *)
Definition map_insert (m : gmap Z registered) (k : Z) (v : registered)
  : gmap Z registered :=
  match m !! k with
  | Some _ => m
  | None => <[k := v]> m
  end.

Definition has_name (m : maker) (name : string) : bool :=
  existsb (fun e => String.eqb e.1 name) (sheets m).

(** [int MatrixMaker::add_ice_sheet(std::unique_ptr<IceSheet> &&sheet)].
    A sheet without a name is refused with an exception.  What
    [giss::Dict::insert] does with a name it already holds is not in the
    sources; for that case the model gives no result ([None]). *)
Definition add_ice_sheet (m : maker) (s : Regrid.IceSheet V)
  : option (outcome (Z * maker)) :=
  if String.eqb (Regrid.sheet_name s) ""
  then Some Throw      (* "MatrixMaker::add_ice_sheet(): Sheet must have a name" *)
  else
    let index := _next_sheet_index m in          (* _next_sheet_index++ *)
    let next := int_wrap (_next_sheet_index m + 1) in
    let r := {| sheet := s; index := index |} in  (* sheet->index = index *)
    if has_name m (Regrid.sheet_name s) then None
    else
      Some (Ret (index,
                 {| sheets := sheets m ++ [(Regrid.sheet_name s, r)];
                    sheets_by_id := map_insert (sheets_by_id m) index r;
                    _next_sheet_index := next |})).

(** [void MatrixMaker::clear()]: the sheets are dropped (with the grid,
    the mask and the elevation points, which are not part of this
    state); [_next_sheet_index] is not among the members it resets. *)
Definition clear (m : maker) : maker :=
  {| sheets := []; sheets_by_id := ∅;
     _next_sheet_index := _next_sheet_index m |}.

(** The loop of [read_from_netcdf] over the sheets it has read:
    [add_ice_sheet] on each, in order; the indices handed out are
    collected. *)
Fixpoint add_ice_sheets (m : maker) (l : list (Regrid.IceSheet V))
  : option (outcome (list Z * maker)) :=
  match l with
  | [] => Some (Ret ([], m))
  | s :: l' =>
      match add_ice_sheet m s with
      | None => None
      | Some Throw => Some Throw
      | Some (Fatal st d) => Some (Fatal st d)
      | Some (Ret (ix, m')) =>
          match add_ice_sheets m' l' with
          | Some (Ret (ixs, m'')) => Some (Ret (ix :: ixs, m''))
          | other => other
          end
      end
  end.

(** Every sheet in [sheets_by_id] is stored under its own index, and
    all indices handed out so far lie below the counter. *)
Definition well_formed (m : maker) : Prop :=
  0 <= _next_sheet_index m /\
  forall k r, sheets_by_id m !! k = Some r ->
              index r = k /\ 0 <= k < _next_sheet_index m.

End Sheets.
Arguments registered V : clear implicits.
Arguments maker V : clear implicits.
End Registry.

(* ===================================================================== *)
(** * Further members of the coupling contract *)
(* ===================================================================== *)

(** In a contract built by [add_field] the name map and the field vector
    describe each other. *)
Definition consistent (c : CouplingContract.t) : Prop :=
  forall n ix,
    c.(CouplingContract._name_to_ix) !! n = Some ix <->
    0 <= ix /\
    CouplingContract.name <$> (c.(CouplingContract._ix_to_field) !! Z.to_nat ix)
      = Some n.

(** [CoupledField const &field(std::string const &name) const]
    returns [field(index(name))]: the strict lookup (the default of
    [index]) followed by the access by index. *)
Definition field_by_name (c : CouplingContract.t) (name : string)
  : outcome (option CouplingContract.CoupledField) :=
  ix ← CouplingContract.index c name true;
  Ret (CouplingContract.field c ix).

(* ===================================================================== *)
(** * Fixtures for the additional properties *)
(* ===================================================================== *)

(** The first of four ranks on the 72 x 46 grid, from the GEOM_SPECS
    listing quoted in ModelEDomain.hpp. *)
Definition modele_72x46 : ModelEDomain.t :=
  ModelEDomain.mk 72 46  1 72 0 12  1 72 1 11  1 11.

(** The northernmost rank of a coarse 8 x 46 grid: rows 36 to 46. *)
Definition polar_cap_8x46 : ModelEDomain.t :=
  ModelEDomain.mk 8 46  1 8 35 46  1 8 36 46  36 45.

(** A sheet with a name and nothing else. *)
Definition named_sheet (nm : string) : Regrid.IceSheet float :=
  sheet_of nm [] 1%float.

(** A maker that has handed out three indices and was then cleared. *)
Definition cleared_maker : Registry.maker float :=
  Registry.clear
    {| Registry.sheets := []; Registry.sheets_by_id := ∅;
       Registry._next_sheet_index := 3 |}.

(** An elevmask spec naming a PISM state file. *)
Definition pism_spec (fname : string) : string := "pism:" +:+ fname.

(** A string without a colon. *)
Definition no_colon (s : string) : Prop := String.index 0 ":" s = None.

Section WeightDefs.
Import Regrid.
Local Open Scope Qc_scope.

(** What [fhc1h] holds for GCM cell [i1]: the weights of its height
    classes, summed. *)
Fixpoint cell_weight (fhc : list (Z * Z * Qc)) (i1 : Z) : Qc :=
  match fhc with
  | [] => 0
  | (i, _, x) :: rest =>
      if decide (i = i1) then x + cell_weight rest i1 else cell_weight rest i1
  end.

(** Sum of the values of the entries whose index satisfies [g]. *)
Fixpoint key_sum (g : Z -> bool) (l : list (Z * Qc)) : Qc :=
  match l with
  | [] => 0
  | (k, v) :: l' => if g k then v + key_sum g l' else key_sum g l'
  end.

(** The combined indices that [index_to_ik] decodes to cell [i1]. *)
Definition in_cell (hci : HCIndex) (i1 : Z) (i1hc : Z) : bool :=
  bool_decide ((index_to_ik hci i1hc).1 = i1).

(** [index_to_ik] decodes what [ik_to_index] encoded, for every
    (cell, height class) pair in which a sheet has ice. *)
Definition decodes_overlaps (hci : HCIndex) (ss : list (IceSheet Qc)) : Prop :=
  Forall (fun s =>
            Forall (fun o : Z * Z * Qc =>
                      index_to_ik hci (ik_to_index hci o.1.1 o.1.2) = o.1)
                   (overlaps s)) ss.

End WeightDefs.

(** Two sheets in exact arithmetic over two GCM cells and two height
    classes. *)
Definition exact_maker : Regrid.MatrixMaker Qc :=
  Regrid.mkMatrixMaker [exact_first; exact_second] (Regrid.hc_index_of 2).

Section RecipeDefs.
Context {V : Type} `{Arith V}.

(** The sum a transformer with no named scalars evaluates for one
    output: coefficient times input value (times the unit scalar), over
    the input slots. *)
Definition weighted_sum (cxs : list (V * V)) : V :=
  vsum (map (fun cx => vmul (vmul cx.1 cx.2) vone) cxs).

(** The coefficient row with [c] on input slot [n] and 0 on the others,
    paired with the input values and the unit slot. *)
Definition single_coefficient (n : nat) (c : V) (vals : list V)
  : list (V * V) :=
  imap (fun i x => (if Nat.eqb i n then c else vzero, x)) (vals ++ [vone]).

(** The ice model state the setup leaves on the ModelE coupler. *)
Definition setup_on_modele (enth_modele_to_pism enth_model_to_pism C2K : V)
    (coupling_type : ModelePism.ModelE_CouplingType)
  : ModelePism.IceModel (V:=V) :=
  returned no_model
    (ModelePism.setup_contracts_modele enth_modele_to_pism enth_model_to_pism
       C2K coupling_type modele_coupler).

End RecipeDefs.

(* ===================================================================== *)
(** * Properties of coupling contracts *)
(* ===================================================================== *)

Section ContractFacts.
Import CouplingContract.

Lemma index_miss (c : t) (nm : string) (strict : bool) :
  _name_to_ix c !! nm = None ->
  index c nm strict =
    if strict then Fatal 1 (index_diagnostic nm) else Ret (-1).
Proof. unfold index. intros ->. reflexivity. Qed.

Lemma index_hit (c : t) (nm : string) (ix : Z) (strict : bool) :
  _name_to_ix c !! nm = Some ix -> index c nm strict = Ret ix.
Proof. unfold index. intros ->. reflexivity. Qed.

(** The diagnostic quotes the name that was looked up. *)
Lemma index_diagnostic_names (nm : string) :
  exists before after, index_diagnostic nm = before +:+ nm +:+ after.
Proof. unfold index_diagnostic. eauto. Qed.

Lemma add_field_rv_inv (c c' : t) (cf : CoupledField) (ix : Z) :
  add_field_rv c cf = Ret (ix, c') ->
  _name_to_ix c !! name cf = None /\
  ix = Z.of_nat (length (_ix_to_field c)) /\
  _ix_to_field c' = _ix_to_field c ++ [cf] /\
  _name_to_ix c' = <[name cf := ix]> (_name_to_ix c) /\
  _size_nounit c' =
    (if String.eqb (name cf) "unit" then _size_nounit c else _size_nounit c + 1).
Proof.
  unfold add_field_rv. destruct (_name_to_ix c !! name cf) eqn:E; [discriminate|].
  intros [= <- <-]. simpl. auto.
Qed.

Lemma resolve_move_param : resolve (std_move param_cref) = add_field_cref.
Proof. reflexivity. Qed.

Lemma resolve_temporary : resolve temporary = add_field_rref.
Proof. reflexivity. Qed.

Lemma steps_from_cref (c : t) (cf : CoupledField) (cfg : config) (n : nat) :
  rtc step (Running (replicate (S n) add_field_cref) c cf) cfg ->
  exists m, cfg = Running (replicate (S m) add_field_cref) c cf.
Proof.
  intros Hrtc.
  remember (Running (replicate (S n) add_field_cref) c cf) as start eqn:Hs.
  revert n Hs.
  induction Hrtc as [x | x y z Hxy Hyz IH]; intros n ->.
  - exists n. reflexivity.
  - inversion Hxy; subst. apply (IH (S n)). reflexivity.
Qed.

End ContractFacts.

(** C6: a name that is not registered makes the strict lookup print the
    diagnostic naming it and terminate through [giss::exit(1)], and makes
    the non-strict lookup return -1; a registered name yields its stored
    index whatever the mode. *)
Theorem index_strict_fatal_probe_sentinel
    (c : CouplingContract.t) (nm : string) :
  (c.(CouplingContract._name_to_ix) !! nm = None ->
     CouplingContract.index c nm true
       = Fatal 1 (CouplingContract.index_diagnostic nm) /\
     (exists before after,
        CouplingContract.index_diagnostic nm = before +:+ nm +:+ after) /\
     CouplingContract.index c nm false = Ret (-1)) /\
  (forall ix, c.(CouplingContract._name_to_ix) !! nm = Some ix ->
     forall strict, CouplingContract.index c nm strict = Ret ix).
Proof.
  split.
  - intros Hnone. repeat split.
    + apply (index_miss c nm true Hnone).
    + apply index_diagnostic_names.
    + apply (index_miss c nm false Hnone).
  - intros ix Hsome strict. apply index_hit, Hsome.
Qed.

Lemma index_strict_fatal_probe_sentinel_witness :
  (CouplingContract.index two_field_contract "litg2" true
     = Fatal 1 (CouplingContract.index_diagnostic "litg2") /\
   CouplingContract.index two_field_contract "litg2" false = Ret (-1)) /\
  (CouplingContract.index two_field_contract "unit" true = Ret 1 /\
   CouplingContract.index two_field_contract "unit" false = Ret 1).
Proof.
  destruct (index_strict_fatal_probe_sentinel two_field_contract "litg2")
    as [Hmiss _].
  destruct (index_strict_fatal_probe_sentinel two_field_contract "unit")
    as [_ Hhit].
  split.
  - destruct Hmiss as (Hs & _ & Hp); [reflexivity|]. split; assumption.
  - split; apply Hhit; reflexivity.
Defined.


Section SizeFacts.
Import CouplingContract.






End SizeFacts.


Lemma lismb_unit_contract_reachable : CouplingContract.reachable lismb_unit_contract.
Proof.
  apply (CouplingContract.reachable_add lismb_contract unit_field 1).
  - apply (CouplingContract.reachable_add CouplingContract.new lismb_field 0).
    + apply CouplingContract.reachable_new.
    + vm_compute. reflexivity.
  - vm_compute. reflexivity.
Defined.


(** C10: in the const-reference overload of [add_field] the argument
    [std::move(cf)] is a const xvalue, which the rvalue-reference overload
    cannot take, so the call selects the const-reference overload again:
    no bound on the number of nested calls lets the call return, and every
    configuration reached is a strictly deeper stack of the same body. *)
Theorem add_field_const_ref_never_returns :
  CouplingContract.resolve (CouplingContract.std_move CouplingContract.param_cref)
    = CouplingContract.add_field_cref /\
  (forall fuel c cf,
     CouplingContract.call_add_field fuel CouplingContract.add_field_cref c cf
       = None) /\
  (forall c cf cfg,
     rtc CouplingContract.step
       (CouplingContract.Running [CouplingContract.add_field_cref] c cf) cfg ->
     exists depth,
       cfg = CouplingContract.Running
               (replicate (S depth) CouplingContract.add_field_cref) c cf).
Proof.
  split; [reflexivity|]. split.
  - induction fuel as [| fuel IH]; intros c cf; [reflexivity|].
    simpl. rewrite resolve_move_param. apply IH.
  - intros c cf cfg Hrtc. apply (steps_from_cref c cf cfg 0 Hrtc).
Qed.

Lemma add_field_const_ref_never_returns_witness :
  CouplingContract.call_add_field 1000 CouplingContract.add_field_cref
    CouplingContract.new lismb_field = None /\
  (exists depth,
     CouplingContract.Running
       [CouplingContract.add_field_cref; CouplingContract.add_field_cref;
        CouplingContract.add_field_cref] CouplingContract.new lismb_field
     = CouplingContract.Running
         (replicate (S depth) CouplingContract.add_field_cref)
         CouplingContract.new lismb_field).
Proof.
  destruct add_field_const_ref_never_returns as (_ & Hfuel & Hsteps).
  split; [apply Hfuel|].
  apply Hsteps.
  eapply rtc_l; [apply CouplingContract.step_cref|].
  eapply rtc_l; [apply CouplingContract.step_cref|].
  apply rtc_refl.
Defined.

(** The other two ways of calling [add_field] do return: a temporary
    binds to the rvalue-reference overload. *)
Lemma add_field_temporary_returns (c : CouplingContract.t) nm dv un fl de :
  CouplingContract.add_field 1 c nm dv un fl de
    = Some (CouplingContract.add_field_rv c
              (CouplingContract.mkCoupledField nm dv un fl de)).
Proof. reflexivity. Qed.

(* ===================================================================== *)
(** * Properties of the merged-TOPOO batch tool *)
(* ===================================================================== *)

Section MergedTopooFacts.
Import MergedTopoo.

Lemma read_elevmask_well_formed cb st xfname :
  well_formed xfname = true ->
  read_elevmask cb st xfname
    = inl (st.1, st.2 ++ [spec_file xfname (find_colon xfname)]).
Proof.
  unfold well_formed, read_elevmask.
  intros [Hc Hp]%andb_true_iff.
  assert ((find_colon xfname <? 0) = false) as -> by lia.
  rewrite Hp. reflexivity.
Qed.

Lemma read_elevmask_ill_formed st xfname :
  well_formed xfname = false ->
  exists msg st', read_elevmask false st xfname = inr (-1, msg, st').
Proof.
  unfold well_formed, read_elevmask, icebin_error.
  destruct (find_colon xfname <? 0) eqn:Hc; [eauto|].
  assert ((0 <=? find_colon xfname) = true) as -> by lia.
  simpl. intros ->. eauto.
Qed.

Lemma read_elevmasks_well_formed cb xfnames : forall st,
  forallb well_formed xfnames = true ->
  exists files, read_elevmasks cb st xfnames = inl (st.1, files).
Proof.
  induction xfnames as [| x xs IH]; intros st Hall; simpl.
  - exists st.2. destruct st; reflexivity.
  - simpl in Hall. apply andb_true_iff in Hall as [Hx Hxs].
    rewrite (read_elevmask_well_formed cb st x Hx).
    destruct (IH (st.1, st.2 ++ [spec_file x (find_colon x)]) Hxs) as [fs Hfs].
    exists fs. exact Hfs.
Qed.

Lemma read_elevmasks_ill_formed xfnames : forall st,
  forallb well_formed xfnames = false ->
  exists msg st', read_elevmasks false st xfnames = inr (-1, msg, st').
Proof.
  induction xfnames as [| x xs IH]; intros st Hall; simpl in *; [discriminate|].
  destruct (well_formed x) eqn:Hx.
  - rewrite (read_elevmask_well_formed false st x Hx). apply IH, Hall.
  - destruct (read_elevmask_ill_formed st x Hx) as (msg & st' & ->). eauto.
Qed.

End MergedTopooFacts.

(** C5 (as stated, refuted): with two elevmask specs of unrecognized
    format and no other problem, a terminating [icebin_error] ends the run
    at the first spec (the second is never reported, nothing reaches the
    error list and no output is written); a returning [icebin_error]
    leaves the error list empty and the exit status 0. *)
Lemma unrecognized_format_not_collected :
  MergedTopoo.main false ["searise:gris.nc"; "issm:ais.nc"] [] []
    = {| MergedTopoo.end_of_run :=
           MergedTopoo.Aborted (-1) "Unrecognized elevmask spec type searise";
         MergedTopoo.stderr_lines := [];
         MergedTopoo.callback_messages :=
           ["Unrecognized elevmask spec type searise"];
         MergedTopoo.errors := [];
         MergedTopoo.output_written := false |} /\
  MergedTopoo.main true ["searise:gris.nc"; "issm:ais.nc"] [] []
    = {| MergedTopoo.end_of_run := MergedTopoo.Returned 0;
         MergedTopoo.stderr_lines := [];
         MergedTopoo.callback_messages :=
           ["Unrecognized elevmask spec type searise";
            "Unrecognized elevmask spec type issm"];
         MergedTopoo.errors := [];
         MergedTopoo.output_written := true |}.
Proof. split; vm_compute; reflexivity. Qed.

(** C5 (amended): the error list holds exactly the sanity-check errors
    appended by [merge_topoO] and [compute_EOpvAOp_merged]; when [main]
    returns it has printed every one of them, written the output, and its
    status is -1 if the list is non-empty and 0 otherwise.  Elevmask specs
    that are all well formed let [main] return; a malformed or
    unrecognized spec is handed to [icebin_error] at once and, when that
    callback terminates the process, the run ends there with nothing
    collected, printed or written. *)
Theorem main_collects_sanity_check_errors
    (callback_returns : bool) (xfnames merge_errs eam_errs : list string) :
  let r := MergedTopoo.main callback_returns xfnames merge_errs eam_errs in
  (forall status, MergedTopoo.end_of_run r = MergedTopoo.Returned status ->
     MergedTopoo.errors r = merge_errs ++ eam_errs /\
     MergedTopoo.stderr_lines r = report (merge_errs ++ eam_errs) /\
     MergedTopoo.output_written r = true /\
     (status = -1 /\ MergedTopoo.errors r <> []
      \/ status = 0 /\ MergedTopoo.errors r = [])) /\
  (forallb well_formed xfnames = true ->
     exists status, MergedTopoo.end_of_run r = MergedTopoo.Returned status) /\
  (callback_returns = false -> forallb well_formed xfnames = false ->
     exists msg,
       MergedTopoo.end_of_run r = MergedTopoo.Aborted (-1) msg /\
       MergedTopoo.errors r = [] /\
       MergedTopoo.stderr_lines r = [] /\
       MergedTopoo.output_written r = false).
Proof.
  unfold MergedTopoo.main. repeat split.
  - destruct (MergedTopoo.read_elevmasks _ _ _) as [st | [[code msg] st]];
      simpl in *; [reflexivity | discriminate].
  - destruct (MergedTopoo.read_elevmasks _ _ _) as [st | [[code msg] st]];
      simpl in *; [reflexivity | discriminate].
  - destruct (MergedTopoo.read_elevmasks _ _ _) as [st | [[code msg] st]];
      simpl in *; [reflexivity | discriminate].
  - destruct (MergedTopoo.read_elevmasks _ _ _) as [st | [[code msg] st]];
      simpl in *; [| discriminate].
    destruct (merge_errs ++ eam_errs) as [| e es]; simpl in *.
    + right. split; [congruence | reflexivity].
    + left. split; [congruence | discriminate].
  - intros Hwf.
    destruct (read_elevmasks_well_formed callback_returns xfnames ([], []) Hwf)
      as [files ->]. simpl.
    destruct (0 <? _); eauto.
  - intros -> Hill.
    destruct (read_elevmasks_ill_formed xfnames ([], []) Hill)
      as (msg & st' & ->). simpl. eauto.
Qed.

Lemma main_collects_sanity_check_errors_witness :
  (let r := MergedTopoo.main false ["pism:gris.nc"]
              ["FOCEAN out of range"] ["EC area mismatch"] in
   MergedTopoo.end_of_run r = MergedTopoo.Returned (-1) /\
   MergedTopoo.errors r = ["FOCEAN out of range"; "EC area mismatch"] /\
   MergedTopoo.stderr_lines r
     = report ["FOCEAN out of range"; "EC area mismatch"] /\
   MergedTopoo.output_written r = true) /\
  (exists status,
     MergedTopoo.end_of_run (MergedTopoo.main false ["pism:gris.nc"] [] [])
       = MergedTopoo.Returned status) /\
  (exists msg,
     MergedTopoo.end_of_run
       (MergedTopoo.main false ["pism:gris.nc"; "searise:ais.nc"] ["e"] [])
       = MergedTopoo.Aborted (-1) msg).
Proof.
  split; [| split].
  - destruct (main_collects_sanity_check_errors false ["pism:gris.nc"]
                ["FOCEAN out of range"] ["EC area mismatch"]) as (Hret & _ & _).
    destruct (Hret (-1)) as (He & Hs & Hw & _); [vm_compute; reflexivity|].
    cbv zeta. split; [vm_compute; reflexivity |].
    split; [exact He |]. split; [exact Hs | exact Hw].
  - destruct (main_collects_sanity_check_errors false ["pism:gris.nc"] [] [])
      as (_ & Hwf & _).
    apply Hwf. vm_compute. reflexivity.
  - destruct (main_collects_sanity_check_errors false
                ["pism:gris.nc"; "searise:ais.nc"] ["e"] []) as (_ & _ & Hab).
    specialize (Hab eq_refl).
    destruct Hab as (msg & Hm & _); [vm_compute; reflexivity |].
    exists msg. exact Hm.
Defined.

(* ===================================================================== *)
(** * Properties of the variable transformer and of the contract setup *)
(* ===================================================================== *)

Section TransformerFacts.
Context {V : Type} `{Arith V}.
Import VarTransformer ModelePism.

Lemma set_unresolved (vt : VarTransformer.t V) o i s (c : V) :
  resolve false (outputs vt) o = None \/
  resolve true (inputs vt) i = None \/
  resolve true (scalars vt) s = None ->
  set vt o i s c = (false, vt).
Proof.
  unfold set. intros [-> | [-> | ->]].
  - reflexivity.
  - destruct (resolve false _ _); reflexivity.
  - destruct (resolve false _ _); [destruct (resolve true (inputs vt) i)|];
      reflexivity.
Qed.

Lemma set_result (vt : VarTransformer.t V) (r : recipe) :
  (set vt (r_output r) (r_input r) (r_scalar r) (r_coeff r)).1 = resolves vt r
  /\ same_axes (set vt (r_output r) (r_input r) (r_scalar r) (r_coeff r)).2 vt.
Proof.
  unfold set, resolves, same_axes.
  destruct (resolve false _ _); [| simpl; auto].
  destruct (resolve true (inputs vt) _); [| simpl; auto].
  destruct (resolve true (scalars vt) _); simpl; auto.
Qed.

Lemma resolves_same_axes (a b : VarTransformer.t V) r :
  same_axes a b -> resolves a r = resolves b r.
Proof. unfold resolves. intros (-> & -> & ->). reflexivity. Qed.

Lemma forallb_pointwise {A} (f g : A -> bool) (l : list A) :
  (forall a, f a = g a) -> forallb f l = forallb g l.
Proof.
  intros Hfg. induction l as [| a l IH]; [reflexivity |].
  simpl. rewrite Hfg, IH. reflexivity.
Qed.

Lemma and_sets_false (vt : VarTransformer.t V) rs :
  and_sets (false, vt) rs = (false, vt).
Proof. induction rs as [| r rs IH]; [reflexivity |]. exact IH. Qed.

(** The flag left by a chain of [ok = ok && vt.set(...)] is the
    conjunction of the incoming flag with "every recipe resolves". *)
Lemma and_sets_ok (rs : list recipe) : forall ok (vt : VarTransformer.t V),
  (and_sets (ok, vt) rs).1 = ok && forallb (resolves vt) rs.
Proof.
  induction rs as [| r rs IH]; intros ok vt.
  - simpl. rewrite andb_true_r. reflexivity.
  - destruct ok.
    + change (and_sets (true, vt) (r :: rs))
        with (and_sets (set vt (r_output r) (r_input r) (r_scalar r) (r_coeff r)) rs).
      destruct (set_result vt r) as [Hfst Hax].
      destruct (set vt _ _ _ _) as [b vt']. simpl in Hfst, Hax.
      rewrite IH. simpl. rewrite Hfst.
      f_equal. apply forallb_pointwise. intros r'.
      apply resolves_same_axes, Hax.
    + rewrite and_sets_false. reflexivity.
Qed.

Lemma build_ice_input_returns ct :
  exists c, build_ice_input ct = Ret c.
Proof. destruct ct; vm_compute; eauto. Qed.

Lemma build_ice_output_returns :
  exists c, build_ice_output = Ret c.
Proof. vm_compute; eauto. Qed.

End TransformerFacts.

(** C8: a [set] whose output, input or scalar name does not resolve
    returns false (and leaves the transformer as it was); the setup
    conjoins the results of all its [set] calls and throws once, at the
    end, exactly when some recipe of the INPUT or OUTPUT sequence fails to
    resolve; otherwise it returns.  No [set] ends the process. *)
Theorem setup_raises_one_combined_failure {V : Type} `{Arith V}
    (enth_modele_to_pism enth_model_to_pism C2K : V)
    (coupling_type : ModelePism.ModelE_CouplingType)
    (coupler : ModelePism.GCMCoupler) :
  (forall (vt : VarTransformer.t V) output input scalar (val : V),
     VarTransformer.resolve false (VarTransformer.outputs vt) output = None \/
     VarTransformer.resolve true (VarTransformer.inputs vt) input = None \/
     VarTransformer.resolve true (VarTransformer.scalars vt) scalar = None ->
     VarTransformer.set vt output input scalar val = (false, vt)) /\
  exists ice_input ice_output,
    ModelePism.build_ice_input coupling_type = Ret ice_input /\
    ModelePism.build_ice_output = Ret ice_output /\
    let ice_input_vt : VarTransformer.t V :=
      ModelePism.bind_axes (ModelePism.gcm_outputs coupler) ice_input
        (ModelePism.ice_input_scalars coupler) in
    let vt : VarTransformer.t V :=
      ModelePism.bind_axes ice_output (ModelePism.gcm_inputs coupler)
        (ModelePism.ice_output_scalars coupler) in
    let all_resolve :=
      forallb (resolves ice_input_vt)
        (ModelePism.input_recipes enth_modele_to_pism C2K coupling_type)
      && forallb (resolves vt)
           (ModelePism.output_recipes enth_modele_to_pism enth_model_to_pism) in
    (all_resolve = false ->
       ModelePism.setup_contracts_modele enth_modele_to_pism enth_model_to_pism
         C2K coupling_type coupler = Throw) /\
    (all_resolve = true ->
       exists model,
         ModelePism.setup_contracts_modele enth_modele_to_pism enth_model_to_pism
           C2K coupling_type coupler = Ret model).
Proof.
  split; [apply set_unresolved |].
  destruct (build_ice_input_returns coupling_type) as [ice_input Hin].
  destruct build_ice_output_returns as [ice_output Hout].
  exists ice_input, ice_output. split; [exact Hin |]. split; [exact Hout |].
  intros ice_input_vt vt all_resolve.
  assert (exists model,
            ModelePism.setup_contracts_modele enth_modele_to_pism
              enth_model_to_pism C2K coupling_type coupler
            = if all_resolve then Ret model else Throw) as [model Hrun].
  { unfold ModelePism.setup_contracts_modele.
    rewrite Hin. unfold mbind at 1, outcome_bind at 1.
    pose proof (and_sets_ok
      (ModelePism.input_recipes enth_modele_to_pism C2K coupling_type)
      true ice_input_vt) as Hok1.
    fold ice_input_vt.
    destruct (ModelePism.and_sets (true, ice_input_vt) _) as [ok1 vt1].
    rewrite Hout. unfold mbind, outcome_bind.
    pose proof (and_sets_ok
      (ModelePism.output_recipes enth_modele_to_pism enth_model_to_pism)
      ok1 vt) as Hok2.
    fold vt.
    destruct (ModelePism.and_sets (ok1, vt) _) as [ok2 vt2].
    unfold fst in Hok1, Hok2. rewrite andb_true_l in Hok1.
    subst ok1 ok2. fold all_resolve.
    exists (ModelePism.mkIceModel ice_input ice_output vt1 vt2).
    destruct all_resolve; reflexivity. }
  rewrite Hrun. split; intros ->; eauto.
Qed.

Lemma built_contracts :
  ModelePism.build_ice_input ModelePism.DIRICHLET_BC = Ret dirichlet_ice_input /\
  ModelePism.build_ice_output = Ret pism_ice_output.
Proof. split; vm_compute; reflexivity. Defined.

Lemma setup_raises_one_combined_failure_witness :
  VarTransformer.set (V:=float) VarTransformer.empty "temperature" "litg" "unit" 1%float
    = (false, VarTransformer.empty) /\
  ModelePism.setup_contracts_modele E_l E_l C2K ModelePism.DIRICHLET_BC
    empty_coupler = Throw /\
  exists model,
    ModelePism.setup_contracts_modele E_l E_l C2K ModelePism.DIRICHLET_BC
      modele_coupler = Ret model.
Proof.
  destruct built_contracts as [Hbi Hbo].
  split; [| split].
  - destruct (setup_raises_one_combined_failure E_l E_l C2K
                ModelePism.DIRICHLET_BC empty_coupler) as [Hset _].
    apply Hset. left. reflexivity.
  - destruct (setup_raises_one_combined_failure E_l E_l C2K
                ModelePism.DIRICHLET_BC empty_coupler)
      as (_ & ice_input & ice_output & Hin & Hout & Hthrow & _).
    rewrite Hbi in Hin. rewrite Hbo in Hout.
    assert (ice_input = dirichlet_ice_input) as -> by congruence.
    assert (ice_output = pism_ice_output) as -> by congruence.
    apply Hthrow. vm_compute. reflexivity.
  - destruct (setup_raises_one_combined_failure E_l E_l C2K
                ModelePism.DIRICHLET_BC modele_coupler)
      as (_ & ice_input & ice_output & Hin & Hout & _ & Hret).
    rewrite Hbi in Hin. rewrite Hbo in Hout.
    assert (ice_input = dirichlet_ice_input) as -> by congruence.
    assert (ice_output = pism_ice_output) as -> by congruence.
    apply Hret. vm_compute. reflexivity.
Defined.

Lemma float_neq (x y : float) : PrimFloat.eqb x y = false -> PrimFloat.eqb y y = true -> x <> y.
Proof. intros Hxy Hyy ->. rewrite Hyy in Hxy. discriminate. Qed.

(** C1 (the code at the failing input): with the offset 437000 J/kg and a
    PISM surface enthalpy of 1000 J/kg, the OUTPUT transformer built by
    the setup yields -436999000 = (1 - 437000) * 1000 for
    "ice_surface_enth", whereas Enth_p - enth_modele_to_pism is
    -436000: both [set] calls name the input "ice_surface_enth", so the
    offset lands in the coefficient of the input. *)
Theorem ice_surface_enth_offset_scales_input :
  is_ret (ModelePism.setup_contracts_modele E_l E_l C2K
            ModelePism.DIRICHLET_BC modele_coupler) = true /\
  VarTransformer.evaluate_named (ModelePism.var_transformer_OUTPUT modele_model)
    (pism_output 1000%float) [] "ice_surface_enth"
    = Some (-436999000)%float /\
  (-436999000)%float = ((1 - E_l) * 1000)%float /\
  (-436999000)%float <> (1000 - E_l)%float.
Proof.
  split; [vm_compute; reflexivity |].
  split; [vm_compute; reflexivity |].
  split; [vm_compute; reflexivity |].
  apply float_neq; vm_compute; reflexivity.
Qed.

(** C9: in the scenario both recipes resolve against the GCM output
    contract and evaluating with litg = 10 gives temperature = 283.15; the
    recipe of the source (input "litg2", output "surface_temperature",
    constant C2K) gives the same value on the ModelE coupler. *)
Theorem dirichlet_temperature_recipe :
  forallb (resolves
             (ModelePism.bind_axes scenario_gcm_outputs scenario_ice_input
                CouplingContract.new)) scenario_recipes = true /\
  scenario_transformer.1 = true /\
  VarTransformer.evaluate_named scenario_transformer.2 [10%float] []
    "temperature" = Some 283.15%float /\
  VarTransformer.evaluate_named (ModelePism.var_transformer_INPUT modele_model)
    (gcm_output_litg2 10%float) [] ModelePism.T = Some 283.15%float.
Proof. repeat split; vm_compute; reflexivity. Qed.

(** What the OUTPUT transformer computes for "ice_surface_enth" on any
    PISM enthalpy [p], over any arithmetic: the sum over the ten input
    slots and the unit slot, where the only non-zero coefficient is
    [(0 + 1) + (- enth_model_to_pism)], on the input itself. *)
Lemma ice_surface_enth_symbolic {V : Type} `{Arith V} (E E' K p : V) :
  VarTransformer.evaluate_named
    (ModelePism.var_transformer_OUTPUT
       (returned no_model
          (ModelePism.setup_contracts_modele E E' K
             ModelePism.DIRICHLET_BC modele_coupler)))
    [vzero; p; vzero; vzero; vzero; vzero; vzero; vzero; vzero; vzero] []
    "ice_surface_enth"
  = Some (vsum (map (fun cx => vmul (vmul cx.1 cx.2) vone)
                  [(vzero, vzero); (vadd (vadd vzero vone) (vopp E'), p);
                   (vzero, vzero); (vzero, vzero); (vzero, vzero);
                   (vzero, vzero); (vzero, vzero); (vzero, vzero);
                   (vzero, vzero); (vzero, vzero); (vzero, vone)])).
Proof. vm_compute. reflexivity. Qed.

(** In exact arithmetic this is [(1 - enth_model_to_pism) * Enth_p] for
    every input: the offset multiplies the input. *)
Lemma ice_surface_enth_exact (E E' K p : Qc) :
  VarTransformer.evaluate_named
    (ModelePism.var_transformer_OUTPUT
       (returned no_model
          (ModelePism.setup_contracts_modele E E' K
             ModelePism.DIRICHLET_BC modele_coupler)))
    [0%Qc; p; 0%Qc; 0%Qc; 0%Qc; 0%Qc; 0%Qc; 0%Qc; 0%Qc; 0%Qc] []
    "ice_surface_enth"
  = Some ((1 - E') * p)%Qc.
Proof.
  pose proof (ice_surface_enth_symbolic (V:=Qc) E E' K p) as Hs.
  etransitivity; [exact Hs |].
  f_equal.
  cbn [vsum map fold_left fst snd vadd vmul vzero vone vopp Arith_exact].
  ring.
Qed.

(* ===================================================================== *)
(** * Properties of the regridding engine *)
(* ===================================================================== *)

Section EngineFacts.
Context {V : Type} `{Arith V}.
Import Regrid.

Lemma hp_to_hc_loop (ss : list (IceSheet V)) : forall ret area,
  fold_left hp_to_hc_sheet ss (ret, area)
  = (ret ++ concat (sheet_products ss area).1, (sheet_products ss area).2).
Proof.
  induction ss as [| s ss IH]; intros ret area; simpl.
  - rewrite app_nil_r. reflexivity.
  - destruct (ice_to_hc s area) as [i2hc area'] eqn:Hs.
    rewrite IH.
    destruct (sheet_products ss area') as [ps area'']. simpl.
    rewrite <- app_assoc. reflexivity.
Qed.

Lemma fold_coo_add {K A} (f : A -> K * V) (l : list A) : forall v,
  fold_left (fun acc x => coo_add acc (f x).1 (f x).2) l v = v ++ map f l.
Proof.
  induction l as [| x l IH]; intros v; simpl.
  - rewrite app_nil_r. reflexivity.
  - rewrite IH. unfold coo_add. rewrite <- app_assoc.
    destruct (f x). reflexivity.
Qed.

Lemma sort_insert_perm {K} (kltb : K -> K -> bool) (e : K * V) v :
  sort_insert kltb e v ≡ₚ e :: v.
Proof.
  induction v as [| e' v IH]; simpl; [reflexivity |].
  destruct (entry_ltb kltb e e'); [reflexivity |].
  rewrite IH. apply Permutation_swap.
Qed.

Lemma coo_sort_perm {K} (kltb : K -> K -> bool) (v : list (K * V)) :
  coo_sort kltb v ≡ₚ v.
Proof.
  induction v as [| e v IH]; simpl; [reflexivity |].
  rewrite sort_insert_perm, IH. reflexivity.
Qed.

Lemma fold_fhc_entries (hci : HCIndex) (am : gmap Z V) (l : list (Z * V)) :
  forall v,
    fold_left
      (fun fhc '(i1hc, a) =>
         let '(i1, hc) := index_to_ik hci i1hc in
         coo_add fhc (i1, hc) (vdiv a (acc_get am i1))) l v
    = v ++ map (fhc_entry hci am) l.
Proof.
  induction l as [| [i1hc a] l IH]; intros v; simpl.
  - rewrite app_nil_r. reflexivity.
  - rewrite IH. unfold fhc_entry at 2. simpl.
    destruct (index_to_ik hci i1hc) as [i1 hc].
    unfold coo_add. rewrite <- app_assoc. reflexivity.
Qed.

Lemma compute_fhc_weights (mm : MatrixMaker V) :
  (compute_fhc mm).1
  = coo_sort pair_ltb
      (map (fhc_entry (hc_index mm) (area1_m (accumulate mm)))
         (acc_entries (area1_m_hc (accumulate mm)))).
Proof.
  unfold compute_fhc. unfold fst. rewrite fold_fhc_entries. reflexivity.
Qed.

(** Every accumulated (cell, height class) area gives one weight entry:
    the area divided by whatever the cell's accumulator holds. *)
Lemma fhc_entry_present (mm : MatrixMaker V) (i1hc : Z) (a : V) :
  area1_m_hc (accumulate mm) !! i1hc = Some a ->
  In (index_to_ik (hc_index mm) i1hc,
      vdiv a (acc_get (area1_m (accumulate mm))
                (index_to_ik (hc_index mm) i1hc).1))
     (compute_fhc mm).1.
Proof.
  intros Hl. rewrite compute_fhc_weights.
  apply list_elem_of_In. rewrite coo_sort_perm.
  apply list_elem_of_In, in_map_iff. exists (i1hc, a). split.
  - unfold fhc_entry. simpl. destruct (index_to_ik (hc_index mm) i1hc).
    reflexivity.
  - apply list_elem_of_In, elem_of_map_to_list. exact Hl.
Qed.

End EngineFacts.

Lemma zero_over_zero (a z : float) : is_zero a -> is_zero z -> (a / z)%float = nan.
Proof. intros [-> | ->] [-> | ->]; reflexivity. Qed.

(** The order is observable in binary64: dividing the duplicate entries
    1 and 2 by the area 5 before summing them gives 1/5 + 2/5, summing
    first would give 3/5, and the two doubles differ. *)
Example hp_to_hc_order_is_observable :
  Regrid.hp_to_hc duplicate_entries_maker = [(0, 0, (1 / 5 + 2 / 5)%float)] /\
  Regrid.hp_to_hc_sum_first duplicate_entries_maker
    = [(0, 0, ((1 + 2) / 5)%float)] /\
  (1 / 5 + 2 / 5)%float <> ((1 + 2) / 5)%float.
Proof.
  split; [vm_compute; reflexivity |].
  split; [vm_compute; reflexivity |].
  apply float_neq; vm_compute; reflexivity.
Qed.

Section ProductFacts.
Context {V : Type} `{Arith V}.
Import Regrid.

Lemma entries_at_cons (e : Z * Z * V) (m : matrix V) (i j : Z) :
  entries_at (e :: m) i j
  = if (i =? e.1.1) && (j =? e.1.2) then e.2 :: entries_at m i j
    else entries_at m i j.
Proof.
  unfold entries_at. simpl. destruct ((i =? e.1.1) && (j =? e.1.2)); reflexivity.
Qed.

(** [multiply]: one entry for every entry of the left matrix and every
    entry of the right matrix that continues it. *)
Lemma elem_of_multiply (a b : matrix V) (i k : Z) (v : V) :
  (i, k, v) ∈ multiply a b <->
  exists j x y, (i, j, x) ∈ a /\ (j, k, y) ∈ b /\ v = vmul x y.
Proof.
  unfold multiply. rewrite list_elem_of_bind. split.
  - intros ([[i' j] x] & Hin & Ha).
    apply list_elem_of_bind in Hin as ([[j' k'] y] & Hin & Hb).
    destruct (decide (j = j')) as [<- | Hne]; [| inversion Hin].
    apply list_elem_of_singleton in Hin. injection Hin as -> -> ->.
    exists j, x, y. auto.
  - intros (j & x & y & Ha & Hb & ->).
    exists (i, j, x). split; [| exact Ha].
    apply list_elem_of_bind. exists (j, k, y). split; [| exact Hb].
    rewrite decide_True by reflexivity. apply list_elem_of_singleton. reflexivity.
Qed.

(** The combined matrix holds the products of the sheets, each computed
    with the area accumulated by the sheets before it. *)
Lemma elem_of_products (ss : list (IceSheet V)) : forall area i k v,
  (i, k, v) ∈ concat (sheet_products ss area).1 <->
  exists pre s post j x y,
    ss = pre ++ s :: post /\
    (i, j, x) ∈ (ice_to_hc s (sheet_products pre area).2).1 /\
    (j, k, y) ∈ hp_to_ice s /\ v = vmul x y.
Proof.
  induction ss as [| s0 ss IH]; intros area i k v.
  - simpl. split.
    + intros Hin. inversion Hin.
    + intros (pre & s & post & _ & _ & _ & Habs & _).
      destruct pre; discriminate.
  - simpl. destruct (ice_to_hc s0 area) as [i2hc area'] eqn:Hs0.
    specialize (IH area' i k v).
    destruct (sheet_products ss area') as [ps area''] eqn:Hps.
    simpl in *. rewrite elem_of_app, elem_of_multiply, IH. split.
    + intros [(j & x & y & Ha & Hb & ->) | (pre & s & post & j & x & y & -> & Ha & Hb & ->)].
      * exists [], s0, ss, j, x, y. simpl. rewrite Hs0. auto.
      * exists (s0 :: pre), s, post, j, x, y. simpl. rewrite Hs0.
        destruct (sheet_products pre area') as [ps' a'] eqn:Hpre. simpl in *. auto.
    + intros (pre & s & post & j & x & y & Heq & Ha & Hb & ->).
      destruct pre as [| s0' pre]; simpl in Heq; injection Heq as <- ->.
      * left. simpl in Ha. rewrite Hs0 in Ha. exists j, x, y. auto.
      * right. exists pre, s, post, j, x, y.
        simpl in Ha. rewrite Hs0 in Ha.
        destruct (sheet_products pre area') as [ps' a'] eqn:Hpre. simpl in *. auto.
Qed.

(** [divide_by] divides every entry by the area accumulated for its row. *)
Lemma entries_at_divide_by (m : matrix V) (area : gmap Z V) (i j : Z) :
  entries_at (divide_by m area).1 i j
  = map (fun x => vdiv x (acc_get area i)) (entries_at m i j).
Proof.
  unfold divide_by. simpl.
  induction m as [| [[i' j'] x] m IH]; [reflexivity |].
  rewrite map_cons, !entries_at_cons. cbn [fst snd].
  destruct (Z.eqb_spec i i') as [<- | Hi]; cbn [andb]; [| exact IH].
  destruct (j =? j'); [rewrite IH; reflexivity | exact IH].
Qed.

(** [add_entry] adds the value to the first entry of its coordinate, or
    appends a new entry when there is none. *)
Lemma entries_at_add_entry (p q : Z) (x : V) (m : matrix V) (i j : Z) :
  entries_at (add_entry p q x m) i j
  = if (i =? p) && (j =? q)
    then match entries_at m i j with
         | [] => [x]
         | y :: r => vadd y x :: r
         end
    else entries_at m i j.
Proof.
  induction m as [| [[i' j'] y] m IH]; cbn [add_entry].
  - rewrite entries_at_cons. cbn [fst snd].
    destruct ((i =? p) && (j =? q)); reflexivity.
  - destruct ((p =? i') && (q =? j')) eqn:Hpq.
    + apply andb_true_iff in Hpq as [Hp%Z.eqb_eq Hq%Z.eqb_eq]. subst i' j'.
      rewrite !entries_at_cons. cbn [fst snd].
      destruct ((i =? p) && (j =? q)); reflexivity.
    + rewrite !entries_at_cons, IH. cbn [fst snd].
      destruct ((i =? p) && (j =? q)) eqn:Hij; [| reflexivity].
      apply andb_true_iff in Hij as [Hi%Z.eqb_eq Hj%Z.eqb_eq]. subst i j.
      rewrite Hpq. reflexivity.
Qed.

Lemma entries_at_fold_add_entry (m : matrix V) (i j : Z) : forall acc,
  entries_at (fold_left (fun acc '(p, q, x) => add_entry p q x acc) m acc) i j
  = match entries_at acc i j, entries_at m i j with
    | [], [] => []
    | [], x :: l => [fold_left vadd l x]
    | y :: r, xs => fold_left vadd xs y :: r
    end.
Proof.
  induction m as [| [[p q] x] m IH]; intros acc.
  - cbn [fold_left]. change (entries_at [] i j) with (@nil V).
    destruct (entries_at acc i j); reflexivity.
  - cbn [fold_left]. rewrite IH, entries_at_add_entry, entries_at_cons.
    cbn [fst snd].
    destruct ((i =? p) && (j =? q)); [| reflexivity].
    destruct (entries_at acc i j), (entries_at m i j); reflexivity.
Qed.

(** [sum_duplicates] leaves, at every coordinate that has entries, one
    entry: their sum in order. *)
Lemma entries_at_sum_duplicates (m : matrix V) (i j : Z) :
  entries_at (sum_duplicates m) i j
  = match entries_at m i j with
    | [] => []
    | x :: l => [fold_left vadd l x]
    end.
Proof. unfold sum_duplicates. apply (entries_at_fold_add_entry m i j []). Qed.

Lemma coords_add_entry (p q : Z) (x : V) (m : matrix V) :
  fst <$> add_entry p q x m
  = if decide ((p, q) ∈ fst <$> m) then fst <$> m else (fst <$> m) ++ [(p, q)].
Proof.
  induction m as [| [[i' j'] y] m IH]; cbn [add_entry].
  - destruct (decide ((p, q) ∈ fst <$> [])) as [Hin | _]; [inversion Hin |].
    reflexivity.
  - destruct ((p =? i') && (q =? j')) eqn:Hpq.
    + apply andb_true_iff in Hpq as [Hp%Z.eqb_eq Hq%Z.eqb_eq]. subst i' j'.
      rewrite !fmap_cons. cbn [fst].
      destruct (decide ((p, q) ∈ (p, q) :: (fst <$> m))) as [_ | Hnin];
        [reflexivity |].
      exfalso. apply Hnin. left.
    + rewrite !fmap_cons, IH. cbn [fst].
      destruct (decide ((p, q) ∈ fst <$> m)) as [Hin | Hnin];
        destruct (decide ((p, q) ∈ (i', j') :: (fst <$> m))) as [Hin' | Hnin'];
        try reflexivity.
      * exfalso. apply Hnin'. right. exact Hin.
      * exfalso. apply elem_of_cons in Hin' as [Heq | Hin']; [| contradiction].
        injection Heq as -> ->. rewrite !Z.eqb_refl in Hpq. discriminate.
Qed.

Lemma coords_fold_add_entry (m : matrix V) : forall acc,
  NoDup (fst <$> acc) ->
  NoDup (fst <$> fold_left (fun acc '(p, q, x) => add_entry p q x acc) m acc).
Proof.
  induction m as [| [[p q] x] m IH]; intros acc Hacc; [exact Hacc |].
  simpl. apply IH. rewrite coords_add_entry.
  destruct (decide ((p, q) ∈ fst <$> acc)) as [Hin | Hnin]; [exact Hacc |].
  apply NoDup_app. split; [exact Hacc |]. split.
  - intros c Hc Hc'. apply list_elem_of_singleton in Hc'. subst c. contradiction.
  - apply NoDup_singleton.
Qed.

Lemma coords_sum_duplicates (m : matrix V) : NoDup (fst <$> sum_duplicates m).
Proof. apply coords_fold_add_entry. constructor. Qed.

Lemma fold_quotients (a : V) (l : list V) : forall s,
  fold_left vadd (map (fun x => vdiv x a) l) s
  = fold_left (fun s y => vadd s (vdiv y a)) l s.
Proof. induction l as [| x l IH]; intros s; [reflexivity | apply IH]. Qed.

Lemma hp_to_hc_composition (mm : MatrixMaker V) :
  hp_to_hc mm = hp_to_hc_spec mm /\
  hp_to_hc mm
  = sum_duplicates (divide_by (combined_products mm) (accumulated_area mm)).1.
Proof.
  unfold hp_to_hc, hp_to_hc_spec, combined_products, accumulated_area.
  pose proof (hp_to_hc_loop (sheets mm) [] ∅) as Hloop.
  unfold matrix in *. rewrite Hloop.
  destruct (sheet_products (sheets mm) ∅) as [ps area].
  simpl. split; reflexivity.
Qed.

Lemma hp_to_hc_entries (mm : MatrixMaker V) (i j : Z) :
  entries_at (hp_to_hc mm) i j
  = quotients_summed (acc_get (accumulated_area mm) i)
      (entries_at (combined_products mm) i j).
Proof.
  destruct (hp_to_hc_composition mm) as [_ ->].
  rewrite entries_at_sum_duplicates.
  pose proof (entries_at_divide_by (combined_products mm)
                (accumulated_area mm) i j) as Hd.
  unfold matrix in *. rewrite Hd.
  destruct (entries_at (combined_products mm) i j) as [| x l]; [reflexivity |].
  simpl. rewrite fold_quotients. reflexivity.
Qed.

Lemma hp_to_hc_sum_first_entries (mm : MatrixMaker V) (i j : Z) :
  entries_at (hp_to_hc_sum_first mm) i j
  = sum_divided (acc_get (accumulated_area mm) i)
      (entries_at (combined_products mm) i j).
Proof.
  unfold hp_to_hc_sum_first, combined_products, accumulated_area.
  destruct (sheet_products (sheets mm) ∅) as [ps area]. cbn [fst snd].
  pose proof (entries_at_divide_by (sum_duplicates (concat ps)) area i j) as Hd.
  pose proof (entries_at_sum_duplicates (concat ps) i j) as Hs.
  unfold matrix in *. rewrite Hd, Hs.
  destruct (entries_at (concat ps) i j); reflexivity.
Qed.

End ProductFacts.

(** C4: [hp_to_hc] computes, sheet by sheet and in order, the product
    [ice_to_hc * hp_to_ice] (one entry for every pair of entries that
    match, [ice_to_hc] being computed with the area accumulated by the
    sheets before) and appends the products into one combined matrix.
    After the loop every entry is divided by the area accumulated for its
    row over all sheets, and duplicates are summed last: the result has
    one entry per coordinate of the combined matrix, holding the sum, in
    order, of the quotients.  The reverse order would leave the quotient
    of the sum, and in binary64 the two can differ. *)
Theorem hp_to_hc_divide_then_sum_duplicates :
  (forall (V : Type) (A : Arith V) (mm : Regrid.MatrixMaker V),
     let combined := combined_products mm in
     let area := accumulated_area mm in
     Regrid.hp_to_hc mm = Regrid.hp_to_hc_spec mm /\
     Regrid.hp_to_hc mm
       = Regrid.sum_duplicates (Regrid.divide_by combined area).1 /\
     (forall i k v,
        (i, k, v) ∈ combined <->
        exists pre s post j x y,
          Regrid.sheets mm = pre ++ s :: post /\
          (i, j, x) ∈ (Regrid.ice_to_hc s (area_before pre)).1 /\
          (j, k, y) ∈ Regrid.hp_to_ice s /\ v = vmul x y) /\
     NoDup (fst <$> Regrid.hp_to_hc mm) /\
     (forall i j,
        entries_at (Regrid.hp_to_hc mm) i j
        = quotients_summed (Regrid.acc_get area i) (entries_at combined i j)) /\
     (forall i j,
        entries_at (Regrid.hp_to_hc_sum_first mm) i j
        = sum_divided (Regrid.acc_get area i) (entries_at combined i j))) /\
  (exists mm : Regrid.MatrixMaker float,
     Regrid.hp_to_hc mm <> Regrid.hp_to_hc_sum_first mm).
Proof.
  split.
  - intros V A mm combined area.
    destruct (hp_to_hc_composition mm) as [Hspec Hcomp].
    split; [exact Hspec |]. split; [exact Hcomp |]. split.
    { intros i k v. apply (elem_of_products (Regrid.sheets mm) ∅). }
    split.
    { rewrite Hcomp. apply coords_sum_duplicates. }
    split.
    + intros i j. apply hp_to_hc_entries.
    + intros i j. apply hp_to_hc_sum_first_entries.
  - exists duplicate_entries_maker.
    destruct hp_to_hc_order_is_observable as (-> & -> & Hne).
    intros Heq. apply Hne. congruence.
Qed.

Lemma hp_to_hc_divide_then_sum_duplicates_witness :
  (0, 0, (1 * 1)%float) ∈ combined_products duplicate_entries_maker /\
  entries_at (Regrid.hp_to_hc duplicate_entries_maker) 0 0
    = [(1 / 5 + 2 / 5)%float].
Proof.
  destruct hp_to_hc_divide_then_sum_duplicates as [Hgen _].
  destruct (Hgen float _ duplicate_entries_maker)
    as (_ & _ & Hin & _ & Hq & _).
  split.
  - apply Hin.
    exists [], duplicate_entries_sheet, [], 0, 1%float, 1%float.
    split; [reflexivity |]. split; [left |]. split; [left | reflexivity].
  - rewrite Hq. vm_compute. reflexivity.
Defined.

(** C3: every accumulated (cell, height class) area yields the weight
    "area divided by the cell's accumulated area" whatever that
    denominator is: there is no test of the denominator and no
    substitute value.  When the accumulated area of the cell is zero (and
    with it the area of the height class) the weight is NaN. *)
Theorem fhc_zero_area_weight_is_nan
    (mm : Regrid.MatrixMaker float) (i1hc : Z) (a : float) :
  Regrid.area1_m_hc (Regrid.accumulate mm) !! i1hc = Some a ->
  let cell_hc := Regrid.index_to_ik (Regrid.hc_index mm) i1hc in
  let denominator := Regrid.acc_get (Regrid.area1_m (Regrid.accumulate mm)) cell_hc.1 in
  In (cell_hc, (a / denominator)%float) (Regrid.compute_fhc mm).1 /\
  (is_zero denominator -> is_zero a ->
   In (cell_hc, nan) (Regrid.compute_fhc mm).1).
Proof.
  intros Hl cell_hc denominator.
  pose proof (fhc_entry_present mm i1hc a Hl) as Hin.
  split; [exact Hin |].
  intros Hz Ha. rewrite <- (zero_over_zero a denominator Ha Hz). exact Hin.
Qed.

Lemma fhc_zero_area_weight_is_nan_witness :
  Regrid.compute_fhc zero_area_maker = ([((0, 0), nan)], [(0, 0%float)]) /\
  In ((0, 0), nan) (Regrid.compute_fhc zero_area_maker).1.
Proof.
  split; [vm_compute; reflexivity |].
  destruct (fhc_zero_area_weight_is_nan zero_area_maker 0 0%float) as [_ Hnan].
  - vm_compute. reflexivity.
  - apply Hnan; left; vm_compute; reflexivity.
Defined.

(** ** Area accumulation in exact arithmetic *)

Section ExactFacts.
Import Regrid.
Local Open Scope Qc_scope.

Lemma lookup_acc_add (m : gmap Z Qc) k v k' :
  acc_add m k v !! k'
  = if decide (k = k') then Some (match m !! k with None => v | Some x => x + v end)
    else m !! k'.
Proof.
  unfold acc_add. destruct (decide (k = k')) as [-> | Hne].
  - rewrite lookup_partial_alter_eq. reflexivity.
  - rewrite lookup_partial_alter_ne by exact Hne. reflexivity.
Qed.

Lemma lookup_acc_fold (l : list (Z * Qc)) (k : Z) : forall m,
  acc_fold m l !! k = combine (m !! k) (has_key l k) (coo_get l k).
Proof.
  induction l as [| [k' v] l IH]; intros m.
  - simpl. destruct (m !! k); simpl; [f_equal; ring | reflexivity].
  - change (acc_fold m ((k', v) :: l)) with (acc_fold (acc_add m k' v) l).
    rewrite IH, lookup_acc_add. simpl.
    destruct (decide (k' = k)) as [-> | Hne].
    + rewrite bool_decide_eq_true_2 by reflexivity. simpl.
      destruct (m !! k); simpl; f_equal; ring.
    + rewrite bool_decide_eq_false_2 by exact Hne. reflexivity.
Qed.

Lemma coo_get_app (v w : list (Z * Qc)) k :
  coo_get (v ++ w) k = coo_get v k + coo_get w k.
Proof.
  induction v as [| [k' x] v IH]; simpl; [ring |].
  destruct (decide (k' = k)); rewrite IH; simpl; ring.
Qed.

Lemma coo_get_perm (v w : list (Z * Qc)) k :
  v ≡ₚ w -> coo_get v k = coo_get w k.
Proof.
  induction 1 as [| [k' x] v w _ IH | [k1 x1] [k2 x2] v | v w u _ IH1 _ IH2];
    simpl.
  - reflexivity.
  - rewrite IH. reflexivity.
  - destruct (decide (k1 = k)), (decide (k2 = k)); simpl; ring.
  - rewrite IH1. exact IH2.
Qed.

Lemma has_key_app (v w : list (Z * Qc)) k :
  has_key (v ++ w) k = has_key v k || has_key w k.
Proof. unfold has_key. apply existsb_app. Qed.

Lemma coo_get_no_key (l : list (Z * Qc)) k :
  has_key l k = false -> coo_get l k = 0.
Proof.
  induction l as [| [k' x] l IH]; simpl; [reflexivity |].
  destruct (decide (k' = k)) as [-> | Hne].
  - rewrite bool_decide_eq_true_2 by reflexivity. discriminate.
  - rewrite bool_decide_eq_false_2 by exact Hne. exact IH.
Qed.

Lemma two_neq_0 : (1 + 1 : Qc) <> 0.
Proof. intros Heq. apply (f_equal this) in Heq. vm_compute in Heq. discriminate. Qed.

Lemma coo_get_half (l : list (Z * Qc)) k :
  coo_get (half_entries l) k = coo_get l k / (1 + 1).
Proof.
  induction l as [| [k' x] l IH]; simpl.
  - field. apply two_neq_0.
  - destruct (decide (k' = k)); rewrite IH; simpl; field; apply two_neq_0.
Qed.

Lemma has_key_half (l : list (Z * Qc)) k :
  has_key (half_entries l) k = has_key l k.
Proof.
  induction l as [| [k' x] l IH]; simpl; [reflexivity |].
  rewrite IH. reflexivity.
Qed.

(** Accumulating a list of contributions in two passes of halved
    values gives the accumulator of one pass with the full values. *)
Lemma acc_fold_two_halves (m : gmap Z Qc) (l : list (Z * Qc)) :
  acc_fold m (half_entries l ++ half_entries l) = acc_fold m l.
Proof.
  apply map_eq. intros k. rewrite !lookup_acc_fold.
  rewrite has_key_app, coo_get_app, has_key_half, coo_get_half.
  rewrite orb_diag.
  assert (coo_get l k / (1 + 1) + coo_get l k / (1 + 1) = coo_get l k) as ->
    by (field; apply two_neq_0).
  reflexivity.
Qed.

Lemma acc_fold_app (m : gmap Z Qc) (l1 l2 : list (Z * Qc)) :
  acc_fold m (l1 ++ l2) = acc_fold (acc_fold m l1) l2.
Proof. unfold acc_fold. apply fold_left_app. Qed.

Lemma accum_areas_split (hci : HCIndex) (s : IceSheet Qc) : forall m1 m2,
  accum_areas hci s (m1, m2)
  = (acc_fold m1 (cell_entries (overlaps s)),
     acc_fold m2 (hc_entries hci (overlaps s))).
Proof.
  unfold accum_areas. induction (overlaps s) as [| [[i1 hc] a] ov IH];
    intros m1 m2; simpl; [reflexivity |].
  rewrite IH. reflexivity.
Qed.

Lemma ice_area_cell_entries (ov : list (Z * Z * Qc)) k :
  ice_area ov k = coo_get (cell_entries ov) k.
Proof.
  induction ov as [| [[i1 hc] a] ov IH]; simpl; [reflexivity |].
  rewrite IH. reflexivity.
Qed.

Lemma cell_entries_halve (ov : list (Z * Z * Qc)) :
  cell_entries (halve_areas (1 + 1) ov) = half_entries (cell_entries ov).
Proof.
  induction ov as [| [[i1 hc] a] ov IH]; simpl; [reflexivity |].
  rewrite IH. reflexivity.
Qed.

Lemma hc_entries_halve hci (ov : list (Z * Z * Qc)) :
  hc_entries hci (halve_areas (1 + 1) ov) = half_entries (hc_entries hci ov).
Proof.
  induction ov as [| [[i1 hc] a] ov IH]; simpl; [reflexivity |].
  rewrite IH. reflexivity.
Qed.

Lemma cell_entries_app (a b : list (Z * Z * Qc)) :
  cell_entries (a ++ b) = cell_entries a ++ cell_entries b.
Proof. apply map_app. Qed.

Lemma hc_entries_app hci (a b : list (Z * Z * Qc)) :
  hc_entries hci (a ++ b) = hc_entries hci a ++ hc_entries hci b.
Proof. apply map_app. Qed.

(** One sheet fed in two half-area batches accumulates the same areas. *)
Lemma accum_areas_two_halves hci (s : IceSheet Qc) accs :
  accum_areas hci
    (with_overlaps s
       (halve_areas (1 + 1) (overlaps s) ++ halve_areas (1 + 1) (overlaps s)))
    accs
  = accum_areas hci s accs.
Proof.
  destruct accs as [m1 m2]. rewrite !accum_areas_split. simpl.
  rewrite cell_entries_app, hc_entries_app.
  rewrite cell_entries_halve, hc_entries_halve.
  rewrite !acc_fold_two_halves. reflexivity.
Qed.

Lemma fhc_sheet_two_halves hci st (s : IceSheet Qc) :
  fhc_sheet hci st
    (with_overlaps s
       (halve_areas (1 + 1) (overlaps s) ++ halve_areas (1 + 1) (overlaps s)))
  = fhc_sheet hci st s.
Proof.
  unfold fhc_sheet. rewrite accum_areas_two_halves. reflexivity.
Qed.

Lemma fold_fraction_entries (s : IceSheet Qc) (l : list (Z * Qc)) : forall fg,
  fold_left
    (fun fg '(i1, ice_covered_area) =>
       coo_add fg i1 (vdiv ice_covered_area (area1 s i1))) l fg
  = fg ++ map (fun e => (e.1, e.2 / area1 s e.1)) l.
Proof.
  induction l as [| [i1 a] l IH]; intros fg; simpl.
  - rewrite app_nil_r. reflexivity.
  - rewrite IH. unfold coo_add. rewrite <- app_assoc. reflexivity.
Qed.

Lemma fhc_sheet_fields hci st (s : IceSheet Qc) :
  let larea1_m := acc_fold ∅ (cell_entries (overlaps s)) in
  fgice1 (fhc_sheet hci st s) = fgice1 st ++ fraction_entries s larea1_m /\
  area1_m (fhc_sheet hci st s) = acc_fold (area1_m st) (acc_entries larea1_m) /\
  area1_m_hc (fhc_sheet hci st s)
    = acc_fold (area1_m_hc st) (hc_entries hci (overlaps s)).
Proof.
  unfold fhc_sheet. rewrite accum_areas_split. simpl.
  rewrite fold_fraction_entries. auto.
Qed.

(** Reading a coordinate list made from the entries of a map. *)
Lemma coo_get_of_map (g : Z -> Qc -> Qc) (m : gmap Z Qc) (k : Z) :
  coo_get (map (fun e => (e.1, g e.1 e.2)) (map_to_list m)) k
  = match m !! k with Some a => g k a | None => 0 end.
Proof.
  induction m as [| i x m Hi _ IH] using map_first_key_ind.
  - rewrite map_to_list_empty, lookup_empty. reflexivity.
  - rewrite (coo_get_perm _ _ k
               (Permutation_map _ (map_to_list_insert m i x Hi))).
    simpl. rewrite IH.
    destruct (decide (i = k)) as [-> | Hne].
    + rewrite lookup_insert_eq, Hi. ring.
    + rewrite lookup_insert_ne by exact Hne. reflexivity.
Qed.

Lemma coo_get_map_to_list (m : gmap Z Qc) (k : Z) :
  coo_get (map_to_list m) k = match m !! k with Some a => a | None => 0 end.
Proof.
  rewrite <- (coo_get_of_map (fun _ a => a)). f_equal.
  symmetry. etransitivity; [| apply map_id].
  apply map_ext. intros [? ?]. reflexivity.
Qed.

Lemma has_key_of_map (m : gmap Z Qc) (k : Z) :
  has_key (map_to_list m) k = bool_decide (is_Some (m !! k)).
Proof.
  destruct (m !! k) as [a |] eqn:Hk.
  - rewrite bool_decide_eq_true_2 by eauto.
    apply existsb_exists. exists (k, a). split.
    + apply list_elem_of_In, elem_of_map_to_list, Hk.
    + simpl. apply bool_decide_eq_true_2. reflexivity.
  - rewrite bool_decide_eq_false_2 by (intros [? ?]; discriminate).
    apply not_true_is_false. intros ([k' a] & Hin & Hk')%existsb_exists.
    simpl in Hk'. apply bool_decide_eq_true_1 in Hk'. subst k'.
    apply list_elem_of_In, elem_of_map_to_list in Hin. congruence.
Qed.

Lemma coo_get_fraction_entries (s : IceSheet Qc) (k : Z) :
  coo_get (fraction_entries s (acc_fold ∅ (cell_entries (overlaps s)))) k
  = sheet_fraction s k.
Proof.
  unfold fraction_entries, acc_entries, sheet_fraction.
  rewrite (coo_get_of_map (fun i a => a / area1 s i)).
  rewrite lookup_acc_fold, lookup_empty, ice_area_cell_entries. simpl.
  destruct (has_key _ k) eqn:Hk; [reflexivity |].
  rewrite (coo_get_no_key _ _ Hk). unfold Qcdiv. ring.
Qed.

(** Accumulating through the sheet-local map is accumulating the
    sheet's contributions directly. *)
Lemma acc_fold_via_local (m : gmap Z Qc) (l : list (Z * Qc)) :
  acc_fold m (acc_entries (acc_fold ∅ l)) = acc_fold m l.
Proof.
  apply map_eq. intros k. unfold acc_entries.
  rewrite !lookup_acc_fold, has_key_of_map.
  rewrite coo_get_map_to_list.
  rewrite lookup_acc_fold, lookup_empty. simpl.
  destruct (has_key l k) eqn:Hk; simpl.
  - reflexivity.
  - rewrite (coo_get_no_key _ _ Hk). reflexivity.
Qed.

Lemma accumulate_fields hci (ss : list (IceSheet Qc)) : forall st k,
  let st' := fold_left (fhc_sheet hci) ss st in
  coo_get (fgice1 st') k = coo_get (fgice1 st) k + sum_fractions ss k /\
  area1_m st'
    = acc_fold (area1_m st) (concat (map (fun s => cell_entries (overlaps s)) ss)) /\
  area1_m_hc st'
    = acc_fold (area1_m_hc st)
        (concat (map (fun s => hc_entries hci (overlaps s)) ss)).
Proof.
  induction ss as [| s ss IH]; intros st k; simpl.
  - repeat split. ring.
  - destruct (IH (fhc_sheet hci st s) k) as (Hfg & Ham & Hhc).
    destruct (fhc_sheet_fields hci st s) as (Hfg1 & Ham1 & Hhc1).
    rewrite Hfg, Ham, Hhc, Hfg1, Ham1, Hhc1.
    rewrite coo_get_app, coo_get_fraction_entries, acc_fold_via_local.
    rewrite !acc_fold_app. repeat split. ring.
Qed.

Lemma sum_fractions_app (a b : list (IceSheet Qc)) k :
  sum_fractions (a ++ b) k = sum_fractions a k + sum_fractions b k.
Proof.
  induction a as [| s a IH]; simpl; [ring |]. rewrite IH. ring.
Qed.

Lemma sum_fractions_common_area (ss : list (IceSheet Qc)) k (A : Qc) :
  (forall s, In s ss -> area1 s k = A) ->
  sum_fractions ss k = total_ice_area ss k / A.
Proof.
  induction ss as [| s ss IH]; intros Harea; simpl.
  - unfold Qcdiv. ring.
  - rewrite IH by (intros s' Hs'; apply Harea; right; exact Hs').
    unfold sheet_fraction. rewrite (Harea s) by (left; reflexivity).
    unfold Qcdiv. ring.
Qed.

Lemma sheet_fraction_half (s : IceSheet Qc) k :
  let half := with_overlaps s (halve_areas (1 + 1) (overlaps s)) in
  sheet_fraction half k + sheet_fraction half k = sheet_fraction s k.
Proof.
  unfold sheet_fraction. simpl.
  rewrite !ice_area_cell_entries, cell_entries_halve, coo_get_half.
  set (x := coo_get (cell_entries (overlaps s)) k).
  assert (x / (1 + 1) + x / (1 + 1) = x) as Hx by (field; apply two_neq_0).
  rewrite <- Hx at 3. unfold Qcdiv. ring.
Qed.

Lemma fgice_value (mm : MatrixMaker Qc) k :
  coo_get (compute_fhc mm).2 k = sum_fractions (sheets mm) k.
Proof.
  unfold compute_fhc. simpl.
  rewrite (coo_get_perm _ _ k (coo_sort_perm Z.ltb _)).
  unfold accumulate.
  destruct (accumulate_fields (hc_index mm) (sheets mm)
              {| area1_m := ∅; area1_m_hc := ∅; fgice1 := [] |} k) as [-> _].
  simpl. ring.
Qed.

Lemma accumulated_areas (mm : MatrixMaker Qc) :
  area1_m (accumulate mm)
    = acc_fold ∅ (concat (map (fun s => cell_entries (overlaps s)) (sheets mm))) /\
  area1_m_hc (accumulate mm)
    = acc_fold ∅ (concat (map (fun s => hc_entries (hc_index mm) (overlaps s))
                            (sheets mm))).
Proof.
  unfold accumulate.
  destruct (accumulate_fields (hc_index mm) (sheets mm)
              {| area1_m := ∅; area1_m_hc := ∅; fgice1 := [] |} 0%Z)
    as (_ & -> & ->).
  split; reflexivity.
Qed.

Lemma acc_fold_halves_inside (m : gmap Z Qc) (a l b : list (Z * Qc)) :
  acc_fold m (a ++ half_entries l ++ half_entries l ++ b)
  = acc_fold m (a ++ l ++ b).
Proof.
  rewrite (app_assoc (half_entries l)).
  rewrite (acc_fold_app m a), (acc_fold_app _ (half_entries l ++ half_entries l)).
  rewrite acc_fold_two_halves, <- !acc_fold_app. reflexivity.
Qed.
End ExactFacts.

(** C2 (as stated, refuted): [fgice1] holds one area fraction per sheet,
    each divided by the cell's area in that sheet's projection.  With
    projected areas 2 and 4 the cell's value is 1/2 + 1/4 = 0.75, which is
    the total area 2 divided by neither 2 nor 4; with one projection
    (area 5) and areas 1 and 2 the value is 1/5 + 2/5, which in binary64
    is not (1 + 2)/5. *)
Lemma fgice_adds_per_sheet_fractions :
  (Regrid.compute_fhc two_projections).2 = [(0, 0.25%float); (0, 0.5%float)] /\
  Regrid.coo_get (Regrid.compute_fhc two_projections).2 0 = 0.75%float /\
  0.75%float <> ((1 + 1) / 2)%float /\
  0.75%float <> ((1 + 1) / 4)%float /\
  (Regrid.compute_fhc one_projection).2
    = [(0, (1 / 5)%float); (0, (2 / 5)%float)] /\
  Regrid.coo_get (Regrid.compute_fhc one_projection).2 0
    <> ((1 + 2) / 5)%float.
Proof.
  repeat split; try (vm_compute; reflexivity);
    apply float_neq; vm_compute; reflexivity.
Qed.

(** C2 (amended), in exact arithmetic: the value of [fgice1] at a cell
    (its entries summed) is the sum over the sheets of the sheet's
    ice-covered area in the cell divided by the cell's area in that
    sheet's projection, which is the total area over the cell's area when
    all sheets give the cell the same area; feeding one sheet's overlap
    contributions as two batches of halved areas, within the sheet or as
    two sheets, changes neither [fhc1h] nor the value of [fgice1]. *)
Theorem fgice_sum_of_fractions_and_batching
    (hci : Regrid.HCIndex) (pre post : list (Regrid.IceSheet Qc))
    (s : Regrid.IceSheet Qc) :
  let mm := Regrid.mkMatrixMaker (pre ++ s :: post) hci in
  let half := Regrid.with_overlaps s
                (Regrid.halve_areas (1 + 1)%Qc (Regrid.overlaps s)) in
  let twice := Regrid.with_overlaps s
                 (Regrid.halve_areas (1 + 1)%Qc (Regrid.overlaps s)
                  ++ Regrid.halve_areas (1 + 1)%Qc (Regrid.overlaps s)) in
  (forall i1,
     Regrid.coo_get (Regrid.compute_fhc mm).2 i1
     = sum_fractions (Regrid.sheets mm) i1) /\
  (forall i1 A,
     (forall s', In s' (Regrid.sheets mm) -> Regrid.area1 s' i1 = A) ->
     Regrid.coo_get (Regrid.compute_fhc mm).2 i1
     = (total_ice_area (Regrid.sheets mm) i1 / A)%Qc) /\
  Regrid.compute_fhc (Regrid.mkMatrixMaker (pre ++ twice :: post) hci)
    = Regrid.compute_fhc mm /\
  (Regrid.compute_fhc (Regrid.mkMatrixMaker (pre ++ half :: half :: post) hci)).1
    = (Regrid.compute_fhc mm).1 /\
  (forall i1,
     Regrid.coo_get
       (Regrid.compute_fhc
          (Regrid.mkMatrixMaker (pre ++ half :: half :: post) hci)).2 i1
     = Regrid.coo_get (Regrid.compute_fhc mm).2 i1).
Proof.
  intros mm half twice. split; [| split; [| split; [| split]]].
  - intros i1. apply fgice_value.
  - intros i1 A Harea. rewrite fgice_value.
    apply sum_fractions_common_area, Harea.
  - unfold Regrid.compute_fhc, Regrid.accumulate. simpl.
    rewrite !fold_left_app. simpl.
    unfold twice. rewrite fhc_sheet_two_halves. reflexivity.
  - rewrite !compute_fhc_weights.
    destruct (accumulated_areas mm) as [-> ->].
    destruct (accumulated_areas
                (Regrid.mkMatrixMaker (pre ++ half :: half :: post) hci))
      as [-> ->].
    simpl. rewrite !map_app, !concat_app. simpl.
    unfold half. simpl.
    rewrite cell_entries_halve, hc_entries_halve.
    rewrite !acc_fold_halves_inside. reflexivity.
  - intros i1. rewrite !fgice_value. simpl.
    rewrite !sum_fractions_app. simpl.
    pose proof (sheet_fraction_half s i1) as Hh. simpl in Hh.
    fold half in Hh. rewrite <- Hh. ring.
Qed.

Lemma fgice_sum_of_fractions_and_batching_witness :
  let mm := Regrid.mkMatrixMaker [exact_first; exact_second]
              (Regrid.hc_index_of 2) in
  (forall s', In s' (Regrid.sheets mm) -> Regrid.area1 s' 0 = (1 + 1)%Qc) /\
  Regrid.coo_get (Regrid.compute_fhc mm).2 0
  = (total_ice_area (Regrid.sheets mm) 0 / (1 + 1))%Qc.
Proof.
  intros mm.
  assert (forall s', In s' (Regrid.sheets mm) -> Regrid.area1 s' 0 = (1 + 1)%Qc)
    as Harea.
  { intros s' [<- | [<- | []]]; reflexivity. }
  split; [exact Harea |].
  destruct (fgice_sum_of_fractions_and_batching (Regrid.hc_index_of 2)
              [] [exact_second] exact_first) as (_ & Hcommon & _).
  apply (Hcommon 0 (1 + 1)%Qc Harea).
Defined.


(* ===================================================================== *)
(** * Properties of the ModelE grid domain *)
(* ===================================================================== *)

Section DomainFacts.
Import ModelEDomain.

Lemma wrap_small (z : Z) : INT_MIN <= z <= INT_MAX -> wrap z = z.
Proof.
  unfold wrap, INT_MIN, INT_MAX. intros Hz.
  change (2 ^ 31) with 2147483648. change (2 ^ 32) with 4294967296.
  rewrite Z.mod_small by lia. lia.
Qed.

(** Only [int] arguments give a result. *)
Lemma global_to_local_ints (d : t) (g : Z) (lindex : Z * Z) :
  global_to_local d g = Some lindex ->
  INT_MIN <= im d <= INT_MAX /\ INT_MIN <= g <= INT_MAX.
Proof.
  unfold global_to_local, is_int.
  destruct (Z.leb_spec INT_MIN (im d)), (Z.leb_spec (im d) INT_MAX),
    (Z.leb_spec INT_MIN g), (Z.leb_spec g INT_MAX); simpl;
    try discriminate.
  intros _. lia.
Qed.

(** For a non-negative index on a grid with a positive number of
    columns, the only operation that can leave the range of [int] is
    the last one, [j_c + 1]. *)
Lemma global_to_local_nonneg (d : t) (g : Z) :
  0 < im d <= INT_MAX ->
  0 <= g <= INT_MAX ->
  global_to_local d g = Some (g mod im d + 1, wrap (g / im d + 1)).
Proof.
  intros Him Hg. unfold global_to_local, is_int.
  assert ((INT_MIN <=? im d) = true) as -> by (unfold INT_MIN; lia).
  assert ((im d <=? INT_MAX) = true) as -> by lia.
  assert ((INT_MIN <=? g) = true) as -> by (unfold INT_MIN; lia).
  assert ((g <=? INT_MAX) = true) as -> by lia.
  assert ((im d =? 0) = false) as -> by lia.
  assert ((g =? INT_MIN) = false) as -> by (unfold INT_MIN; lia).
  simpl.
  rewrite Z.quot_div_nonneg by lia.
  pose proof (Z.div_mod g (im d) ltac:(lia)) as Hdm.
  pose proof (Z.mod_pos_bound g (im d) ltac:(lia)) as Hmod.
  assert (0 <= g / im d <= g) as Hq.
  { split; [apply Z.div_pos; lia |].
    apply Z.div_le_upper_bound; nia. }
  assert (0 <= im d * (g / im d) <= g) as Hp by nia.
  rewrite (wrap_small (im d * (g / im d))) by (unfold INT_MIN; lia).
  replace (g - im d * (g / im d)) with (g mod im d) by lia.
  rewrite (wrap_small (g mod im d)) by (unfold INT_MIN; lia).
  rewrite (wrap_small (g mod im d + 1)) by (unfold INT_MIN; lia).
  reflexivity.
Qed.

End DomainFacts.

(** X1: for a global index [0 <= g < INT_MAX] on a grid with [im > 0]
    columns, [global_to_local] returns 1-based indices [(i, j)] with
    [1 <= i <= im] and [j >= 1] that are again C++ [int]s, and [g] is
    recovered from them as [(j - 1) * im + (i - 1)]. *)
Theorem global_to_local_decodes (d : ModelEDomain.t) (g : Z) :
  0 < ModelEDomain.im d <= ModelEDomain.INT_MAX ->
  0 <= g < ModelEDomain.INT_MAX ->
  exists i j,
    ModelEDomain.global_to_local d g = Some (i, j) /\
    1 <= i <= ModelEDomain.im d /\
    1 <= j <= ModelEDomain.INT_MAX /\
    ModelEDomain.global_index d (i, j) = g.
Proof.
  intros Him Hg.
  rewrite (global_to_local_nonneg d g Him) by lia.
  pose proof (Z.div_mod g (ModelEDomain.im d) ltac:(lia)) as Hdm.
  pose proof (Z.mod_pos_bound g (ModelEDomain.im d) ltac:(lia)) as Hmod.
  assert (0 <= g / ModelEDomain.im d <= g) as Hq.
  { split; [apply Z.div_pos; lia |].
    apply Z.div_le_upper_bound; nia. }
  rewrite wrap_small by (unfold ModelEDomain.INT_MIN; lia).
  eexists _, _. split; [reflexivity |].
  unfold ModelEDomain.global_index. simpl. nia.
Qed.

Lemma global_to_local_decodes_witness :
  exists i j,
    ModelEDomain.global_to_local modele_72x46 100 = Some (i, j) /\
    1 <= i <= 72 /\ 1 <= j <= ModelEDomain.INT_MAX /\
    ModelEDomain.global_index modele_72x46 (i, j) = 100.
Proof.
  apply (global_to_local_decodes modele_72x46 100); vm_compute; split; congruence.
Defined.

(** X2: conversely, for 1-based [int] indices [1 <= i <= im] and
    [1 <= j] whose global index [(j - 1) * im + (i - 1)] is an [int],
    [global_to_local] applied to that global index gives back [(i, j)]. *)
Theorem global_to_local_of_global_index (d : ModelEDomain.t) (i j : Z) :
  ModelEDomain.im d <= ModelEDomain.INT_MAX ->
  1 <= i <= ModelEDomain.im d ->
  1 <= j <= ModelEDomain.INT_MAX ->
  ModelEDomain.global_index d (i, j) <= ModelEDomain.INT_MAX ->
  ModelEDomain.global_to_local d (ModelEDomain.global_index d (i, j))
    = Some (i, j).
Proof.
  intros Him Hi Hj. unfold ModelEDomain.global_index. simpl. intros Hg.
  assert (0 <= (j - 1) * ModelEDomain.im d + (i - 1)) as Hnn by nia.
  rewrite global_to_local_nonneg by lia.
  assert (((j - 1) * ModelEDomain.im d + (i - 1)) / ModelEDomain.im d = j - 1)
    as ->.
  { rewrite Z.div_add_l by lia. rewrite Z.div_small by lia. lia. }
  assert (((j - 1) * ModelEDomain.im d + (i - 1)) mod ModelEDomain.im d = i - 1)
    as ->.
  { rewrite Z.add_comm, Z.mod_add by lia. apply Z.mod_small. lia. }
  rewrite wrap_small by (unfold ModelEDomain.INT_MIN; lia).
  f_equal. f_equal; lia.
Qed.

Lemma global_to_local_of_global_index_witness :
  ModelEDomain.global_to_local modele_72x46
    (ModelEDomain.global_index modele_72x46 (29, 2)) = Some (29, 2).
Proof.
  apply (global_to_local_of_global_index modele_72x46 29 2);
    vm_compute; try split; congruence.
Defined.

(** X3: when the halo bounds enclose the domain bounds
    ([j0h_f <= j0_f] and [j1_f <= j1h_f]), every index pair accepted by
    [in_domain] is accepted by [in_halo]. *)
Theorem in_domain_in_halo (d : ModelEDomain.t) (lindex : Z * Z) :
  ModelEDomain.j0h_f d <= ModelEDomain.j0_f d ->
  ModelEDomain.j1_f d <= ModelEDomain.j1h_f d ->
  ModelEDomain.in_domain d lindex = true ->
  ModelEDomain.in_halo d lindex = true.
Proof.
  unfold ModelEDomain.in_domain, ModelEDomain.in_halo.
  intros H0 H1 [Ha Hb]%andb_true_iff.
  apply andb_true_iff. split; lia.
Qed.

Lemma in_domain_in_halo_witness :
  ModelEDomain.in_domain modele_72x46 (29, 2) = true /\
  ModelEDomain.in_halo modele_72x46 (29, 2) = true.
Proof.
  split; [reflexivity |].
  apply (in_domain_in_halo modele_72x46 (29, 2));
    [vm_compute; congruence | vm_compute; congruence | reflexivity].
Defined.

(** X4: [in_domain] tests the first (column) index against [j0_f] and
    the second (row) index against [j1_f].  For a domain with
    [j0_f <= 1] the cells of the domain with global index
    [0 <= g < INT_MAX] are therefore exactly those with global index
    below [im * j1_f]: the first [j1_f] rows. *)
Theorem in_domain_first_rows (d : ModelEDomain.t) (g : Z) (lindex : Z * Z) :
  0 < ModelEDomain.im d ->
  0 <= g < ModelEDomain.INT_MAX ->
  ModelEDomain.j0_f d <= 1 ->
  ModelEDomain.global_to_local d g = Some lindex ->
  (ModelEDomain.in_domain d lindex = true
   <-> g < ModelEDomain.im d * ModelEDomain.j1_f d).
Proof.
  intros Him Hg Hj0 Hl.
  destruct (global_to_local_ints d g lindex Hl) as [Himax _].
  rewrite global_to_local_nonneg in Hl by lia.
  injection Hl as <-. unfold ModelEDomain.in_domain. simpl.
  pose proof (Z.div_mod g (ModelEDomain.im d) ltac:(lia)) as Hdm.
  pose proof (Z.mod_pos_bound g (ModelEDomain.im d) ltac:(lia)) as Hmod.
  assert (0 <= g / ModelEDomain.im d <= g) as Hq.
  { split; [apply Z.div_pos; lia |].
    apply Z.div_le_upper_bound; nia. }
  rewrite wrap_small by (unfold ModelEDomain.INT_MIN; lia).
  rewrite andb_true_iff, !Z.leb_le.
  split.
  - intros [_ Hrow]. nia.
  - intros Hlt. split; [nia |].
    assert (g / ModelEDomain.im d < ModelEDomain.j1_f d); [| lia].
    apply Z.div_lt_upper_bound; lia.
Qed.

Lemma in_domain_first_rows_witness :
  ModelEDomain.in_domain modele_72x46 (29, 2) = true <-> 100 < 72 * 11.
Proof.
  apply (in_domain_first_rows modele_72x46 100 (29, 2));
    vm_compute; try split; congruence.
Defined.

(** At the upper end of [int] the bound on [g] matters: on a grid of one
    column the row of [g = INT_MAX] wraps around to [INT_MIN], a local
    index that [in_domain] accepts. *)
Example global_to_local_row_wraps :
  ModelEDomain.global_to_local
    (ModelEDomain.mk 1 46  1 1 0 12  1 1 1 11  1 11) ModelEDomain.INT_MAX
    = Some (1, ModelEDomain.INT_MIN) /\
  ModelEDomain.in_domain
    (ModelEDomain.mk 1 46  1 1 0 12  1 1 1 11  1 11) (1, ModelEDomain.INT_MIN)
    = true.
Proof. split; vm_compute; reflexivity. Qed.

(** X5: because the column index is the one compared with [j0_f], a
    domain whose [j0_f] exceeds the number of columns [im] contains no
    cell of the grid at all. *)
Theorem in_domain_empty_beyond_columns (d : ModelEDomain.t) (g : Z)
    (lindex : Z * Z) :
  0 < ModelEDomain.im d ->
  0 <= g ->
  ModelEDomain.im d < ModelEDomain.j0_f d ->
  ModelEDomain.global_to_local d g = Some lindex ->
  ModelEDomain.in_domain d lindex = false.
Proof.
  intros Him Hg Hj0 Hl.
  destruct (global_to_local_ints d g lindex Hl) as [Himax Hgmax].
  rewrite global_to_local_nonneg in Hl by lia.
  injection Hl as <-. unfold ModelEDomain.in_domain. simpl.
  pose proof (Z.mod_pos_bound g (ModelEDomain.im d) ltac:(lia)) as Hmod.
  apply andb_false_iff. left. apply Z.leb_gt. lia.
Qed.

Lemma in_domain_empty_beyond_columns_witness :
  ModelEDomain.in_domain polar_cap_8x46 (5, 41) = false.
Proof.
  apply (in_domain_empty_beyond_columns polar_cap_8x46 324 (5, 41));
    vm_compute; congruence.
Defined.

(* ===================================================================== *)
(** * Properties of the sheet-name list *)
(* ===================================================================== *)

Section SheetNamesFacts.
Import SheetNames.

Lemma getline_scan_rest (s tok rest : string) :
  getline_scan s = (tok, Some rest) ->
  pieces s = (tok, (pieces rest).1 :: (pieces rest).2) /\
  (String.length rest < String.length s)%nat.
Proof.
  revert tok rest. induction s as [| c s IH]; intros tok rest; [discriminate |].
  simpl. destruct (Ascii.eqb c ",") eqn:Hc.
  - intros [= <- <-]. destruct (pieces s). split; [reflexivity | simpl; lia].
  - destruct (getline_scan s) as [tok' [rest' |]] eqn:Hs; [| discriminate].
    intros [= <- <-]. destruct (IH tok' rest' eq_refl) as [-> Hlen].
    split; [reflexivity | simpl; lia].
Qed.

Lemma getline_scan_end (s tok : string) :
  getline_scan s = (tok, None) -> pieces s = (tok, []).
Proof.
  revert tok. induction s as [| c s IH]; intros tok.
  - intros [= <-]. reflexivity.
  - simpl. destruct (Ascii.eqb c ","); [discriminate |].
    destruct (getline_scan s) as [tok' [rest' |]] eqn:Hs; intros [= <-].
    rewrite (IH tok' eq_refl). reflexivity.
Qed.

Lemma parse_loop_pieces (fuel : nat) : forall s result,
  (String.length s + 2 <= fuel)%nat ->
  parse_loop fuel {| buffer := s; good := true |} result
  = Some (result ++ (pieces s).1 :: (pieces s).2).
Proof.
  induction fuel as [| fuel IH]; intros s result Hfuel; [lia |].
  simpl. unfold getline. simpl.
  destruct (getline_scan s) as [tok [rest |]] eqn:Hs.
  - destruct (getline_scan_rest s tok rest Hs) as [-> Hlen].
    rewrite IH by lia. rewrite <- app_assoc. reflexivity.
  - rewrite (getline_scan_end s tok Hs).
    destruct fuel as [| fuel']; [lia |]. reflexivity.
Qed.

Lemma str_app_cons (c : ascii) (s t : string) :
  String c s +:+ t = String c (s +:+ t).
Proof. reflexivity. Qed.

Lemma str_app_nil_l (t : string) : EmptyString +:+ t = t.
Proof. reflexivity. Qed.

Lemma str_app_assoc (s t u : string) : (s +:+ t) +:+ u = s +:+ (t +:+ u).
Proof.
  induction s as [| c s IH]; [reflexivity |].
  rewrite !str_app_cons, IH. reflexivity.
Qed.

Lemma sheet_names_loop_join (rest : list string) : forall acc sheet,
  sheet_names_loop acc sheet rest = acc +:+ join sheet rest.
Proof.
  induction rest as [| n rest IH]; intros acc sheet.
  - reflexivity.
  - change (sheet_names_loop acc sheet (n :: rest))
      with (sheet_names_loop ((acc +:+ sheet) +:+ ",") n rest).
    rewrite IH. change (join sheet (n :: rest)) with (sheet +:+ "," +:+ join n rest).
    rewrite !str_app_assoc. reflexivity.
Qed.

Lemma join_pieces (s : string) : join (pieces s).1 (pieces s).2 = s.
Proof.
  induction s as [| c s IH]; [reflexivity |].
  simpl. destruct (pieces s) as [h t]. cbn [fst snd] in IH.
  destruct (Ascii.eqb_spec c ",") as [-> | Hne]; cbn [fst snd].
  - change (join EmptyString (h :: t)) with (EmptyString +:+ "," +:+ join h t).
    rewrite str_app_nil_l, str_app_cons, str_app_nil_l, IH. reflexivity.
  - destruct t as [| n t].
    + simpl in *. rewrite IH. reflexivity.
    + change (join (String c h) (n :: t))
        with (String c h +:+ "," +:+ join n t).
      rewrite str_app_cons. f_equal. exact IH.
Qed.

Lemma sheet_names_loop_pieces (s : string) :
  sheet_names_loop EmptyString (pieces s).1 (pieces s).2 = s.
Proof. rewrite sheet_names_loop_join, str_app_nil_l. apply join_pieces. Qed.

Lemma commas_pieces (s : string) : length (pieces s).2 = commas s.
Proof.
  induction s as [| c s IH]; [reflexivity |].
  simpl. destruct (pieces s) as [h t]. simpl in *.
  destruct (Ascii.eqb c ","); simpl; rewrite IH; reflexivity.
Qed.

Lemma pieces_append_comma (h : string) : forall s,
  commas h = O ->
  pieces (h +:+ "," +:+ s) = (h, (pieces s).1 :: (pieces s).2).
Proof.
  induction h as [| c h IH]; intros s Hc.
  - rewrite str_app_nil_l, str_app_cons, str_app_nil_l. simpl.
    destruct (pieces s). reflexivity.
  - simpl in Hc. rewrite str_app_cons. simpl.
    destruct (Ascii.eqb c ","); [discriminate |].
    rewrite (IH s Hc). reflexivity.
Qed.

Lemma pieces_no_comma (h : string) : commas h = O -> pieces h = (h, []).
Proof.
  induction h as [| c h IH]; intros Hc; simpl; [reflexivity |].
  simpl in Hc. destruct (Ascii.eqb c ","); [discriminate |].
  rewrite (IH Hc). reflexivity.
Qed.

Lemma pieces_join (rest : list string) : forall sheet,
  Forall (fun n => commas n = O) (sheet :: rest) ->
  pieces (join sheet rest) = (sheet, rest).
Proof.
  induction rest as [| n rest IH]; intros sheet Hall.
  - simpl. apply pieces_no_comma. inversion Hall; assumption.
  - inversion Hall as [| ? ? Hs Hrest]; subst.
    change (join sheet (n :: rest)) with (sheet +:+ "," +:+ join n rest).
    rewrite pieces_append_comma by exact Hs.
    rewrite (IH n Hrest). reflexivity.
Qed.

Lemma pieces_sheet_names (rest : list string) (sheet : string) :
  Forall (fun n => commas n = O) (sheet :: rest) ->
  pieces (sheet_names_loop EmptyString sheet rest) = (sheet, rest).
Proof.
  intros Hall. rewrite sheet_names_loop_join, str_app_nil_l.
  apply pieces_join, Hall.
Qed.

End SheetNamesFacts.

(** X6: [parse_comma_list] ends after at most [length + 1] reads; it
    returns one more name than the list has commas (so never an empty
    vector: the empty string parses to one empty name), and joining the
    names with commas, as [netcdf_define] does, gives back the string. *)
Theorem parse_comma_list_rejoins (fuel : nat) (names : string) :
  (String.length names + 2 <= fuel)%nat ->
  exists result,
    SheetNames.parse_comma_list fuel names = Some result /\
    length result = S (SheetNames.commas names) /\
    SheetNames.sheet_names result = Some names.
Proof.
  intros Hfuel. unfold SheetNames.parse_comma_list.
  rewrite parse_loop_pieces by exact Hfuel. simpl.
  eexists. split; [reflexivity |]. split.
  - simpl. rewrite commas_pieces. reflexivity.
  - simpl. rewrite sheet_names_loop_pieces. reflexivity.
Qed.

Lemma parse_comma_list_rejoins_witness :
  exists result,
    SheetNames.parse_comma_list 30 "greenland,antarctica," = Some result /\
    length result = 3%nat /\
    SheetNames.sheet_names result = Some "greenland,antarctica,".
Proof.
  apply (parse_comma_list_rejoins 30 "greenland,antarctica,").
  vm_compute. repeat constructor.
Defined.

(** X7: the "sheetnames" attribute round trip: for a non-empty
    collection of sheets none of whose names contains a comma, parsing the
    attribute written by [netcdf_define] returns the names in order. *)
Theorem sheet_names_round_trip (fuel : nat) (sheet : string)
    (rest : list string) (attribute : string) :
  Forall (fun n => SheetNames.commas n = O) (sheet :: rest) ->
  SheetNames.sheet_names (sheet :: rest) = Some attribute ->
  (String.length attribute + 2 <= fuel)%nat ->
  SheetNames.parse_comma_list fuel attribute = Some (sheet :: rest).
Proof.
  intros Hall [= <-] Hfuel. unfold SheetNames.parse_comma_list.
  rewrite parse_loop_pieces by exact Hfuel.
  rewrite (pieces_sheet_names rest sheet Hall). reflexivity.
Qed.

Lemma sheet_names_round_trip_witness :
  SheetNames.sheet_names ["greenland"; "antarctica"]
    = Some "greenland,antarctica" /\
  SheetNames.parse_comma_list 30 "greenland,antarctica"
    = Some ["greenland"; "antarctica"].
Proof.
  split; [reflexivity |].
  apply (sheet_names_round_trip 30 "greenland" ["antarctica"]
           "greenland,antarctica").
  - repeat constructor.
  - reflexivity.
  - vm_compute. repeat constructor.
Defined.

(* ===================================================================== *)
(** * Further properties of coupling contracts *)
(* ===================================================================== *)

Section ContractRoundTrips.
Import CouplingContract.

Lemma reachable_consistent (c : t) : reachable c -> consistent c.
Proof.
  induction 1 as [| c cf ix c' Hr IH Hadd]; intros n j.
  - simpl. rewrite lookup_empty. split; [discriminate |].
    intros [_ Hl]. destruct (Z.to_nat j); discriminate.
  - apply add_field_rv_inv in Hadd as (Hfresh & -> & Hf & Hm & _).
    rewrite Hf, Hm. split.
    + destruct (decide (name cf = n)) as [<- | Hne].
      * rewrite lookup_insert_eq. intros [= <-]. split; [lia |].
        rewrite Nat2Z.id, lookup_app_r by lia.
        rewrite Nat.sub_diag. reflexivity.
      * rewrite lookup_insert_ne by exact Hne. intros Hl.
        apply IH in Hl as [Hj Hl]. split; [exact Hj |].
        destruct (_ix_to_field c !! Z.to_nat j) as [f |] eqn:Hf'; [| discriminate].
        rewrite lookup_app_l by (eapply lookup_lt_Some; eassumption).
        rewrite Hf'. exact Hl.
    + intros [Hj Hl].
      destruct (decide (Z.to_nat j < length (_ix_to_field c))%nat) as [Hlt | Hge].
      * rewrite lookup_app_l in Hl by exact Hlt.
        assert (_name_to_ix c !! n = Some j) as Hold by (apply IH; auto).
        rewrite lookup_insert_ne; [exact Hold |].
        intros <-. congruence.
      * rewrite lookup_app_r in Hl by lia.
        destruct (Z.to_nat j - length (_ix_to_field c))%nat as [| k] eqn:Hk;
          [| destruct k; discriminate].
        simpl in Hl. injection Hl as <-.
        assert (j = Z.of_nat (length (_ix_to_field c))) as -> by lia.
        apply lookup_insert_eq.
Qed.

End ContractRoundTrips.

(** X8: in every contract built from the default-constructed one by
    successful [add_field] calls, a name that [index] finds has an [int]
    index inside the field vector and [name(ix)] gives the name back, in
    both modes; so the non-strict result -1 is never the index of a
    field and means exactly "not registered".  Conversely the name of
    the field at any index is found at that index. *)
Theorem index_name_round_trip (c : CouplingContract.t) :
  CouplingContract.reachable c ->
  (forall n ix strict,
     c.(CouplingContract._name_to_ix) !! n = Some ix ->
     CouplingContract.index c n strict = Ret ix /\
     0 <= ix < CouplingContract.size_withunit c /\
     CouplingContract.name_of c ix = Some n) /\
  (forall n,
     CouplingContract.index c n false = Ret (-1) <->
     c.(CouplingContract._name_to_ix) !! n = None) /\
  (forall ix n strict,
     CouplingContract.name_of c ix = Some n ->
     CouplingContract.index c n strict = Ret ix).
Proof.
  intros Hr. pose proof (reachable_consistent c Hr) as Hc.
  split; [| split].
  - intros n ix strict Hl. split; [apply index_hit, Hl |].
    apply Hc in Hl as [Hix Hl].
    destruct (CouplingContract._ix_to_field c !! Z.to_nat ix) as [f |] eqn:Hf;
      [| discriminate].
    apply lookup_lt_Some in Hf as Hlt.
    split; [unfold CouplingContract.size_withunit; lia |].
    unfold CouplingContract.name_of, CouplingContract.field.
    assert ((ix <? 0) = false) as -> by lia. rewrite Hf. exact Hl.
  - intros n. unfold CouplingContract.index.
    destruct (CouplingContract._name_to_ix c !! n) as [ix |] eqn:Hl.
    + split; [| discriminate]. intros [= ->].
      apply Hc in Hl as [Hix _]. lia.
    + split; reflexivity.
  - intros ix n strict Hn. apply index_hit, Hc.
    unfold CouplingContract.name_of, CouplingContract.field in Hn.
    destruct (ix <? 0) eqn:Hix; [discriminate |]. split; [lia | exact Hn].
Qed.

Lemma index_name_round_trip_witness :
  CouplingContract.index lismb_unit_contract "unit" true = Ret 1 /\
  CouplingContract.name_of lismb_unit_contract 1 = Some "unit" /\
  CouplingContract.index lismb_unit_contract "litg2" false = Ret (-1).
Proof.
  destruct (index_name_round_trip lismb_unit_contract
              lismb_unit_contract_reachable) as (Hhit & Hmiss & _).
  destruct (Hhit "unit" 1 true) as (Hi & _ & Hn); [vm_compute; reflexivity |].
  split; [exact Hi |]. split; [exact Hn |].
  apply Hmiss. vm_compute. reflexivity.
Defined.

(** X9: a successful [add_field] on such a contract returns the old
    number of fields as the new index; afterwards the field is found
    under its name and read back unchanged at that index, and every name
    registered before keeps its index and its field. *)
Theorem add_field_then_lookup (c c' : CouplingContract.t)
    (cf : CouplingContract.CoupledField) (ix : Z) :
  CouplingContract.reachable c ->
  CouplingContract.add_field_rv c cf = Ret (ix, c') ->
  ix = CouplingContract.size_withunit c /\
  (forall strict,
     CouplingContract.index c' (CouplingContract.name cf) strict = Ret ix) /\
  CouplingContract.field c' ix = Some cf /\
  (forall n j strict,
     c.(CouplingContract._name_to_ix) !! n = Some j ->
     CouplingContract.index c' n strict = Ret j /\
     CouplingContract.field c' j = CouplingContract.field c j).
Proof.
  intros Hr Hadd. pose proof (reachable_consistent c Hr) as Hc.
  apply add_field_rv_inv in Hadd as (Hfresh & -> & Hf & Hm & _).
  split; [reflexivity |]. split; [| split].
  - intros strict. apply index_hit. rewrite Hm. apply lookup_insert_eq.
  - unfold CouplingContract.field. rewrite Hf.
    assert ((Z.of_nat (length (CouplingContract._ix_to_field c)) <? 0) = false)
      as -> by (apply Z.ltb_ge; lia).
    rewrite Nat2Z.id, lookup_app_r by lia. rewrite Nat.sub_diag. reflexivity.
  - intros n j strict Hl. split.
    + apply index_hit. rewrite Hm, lookup_insert_ne; [exact Hl |].
      intros <-. congruence.
    + apply Hc in Hl as [Hj Hl]. unfold CouplingContract.field. rewrite Hf.
      destruct (CouplingContract._ix_to_field c !! Z.to_nat j) as [f |] eqn:Hf';
        [| discriminate].
      rewrite lookup_app_l by (eapply lookup_lt_Some; eassumption).
      rewrite Hf'. reflexivity.
Qed.

Lemma add_field_then_lookup_witness :
  CouplingContract.index lismb_unit_contract "unit" true = Ret 1 /\
  CouplingContract.field lismb_unit_contract 1 = Some unit_field /\
  CouplingContract.index lismb_unit_contract "lismb" true = Ret 0.
Proof.
  assert (CouplingContract.reachable lismb_contract) as Hr.
  { apply (CouplingContract.reachable_add CouplingContract.new lismb_field 0).
    - apply CouplingContract.reachable_new.
    - vm_compute. reflexivity. }
  destruct (add_field_then_lookup lismb_contract lismb_unit_contract unit_field 1 Hr)
    as (_ & Hnew & Hfield & Hold); [vm_compute; reflexivity |].
  split; [apply Hnew |]. split; [exact Hfield |].
  apply (Hold "lismb" 0 true). vm_compute. reflexivity.
Defined.

(** X10: the lookup of a field by name composes the strict [index] with
    the access by index: on such a contract it returns the field carrying
    that name when the name is registered, and ends the process with the
    diagnostic of [index] when it is not. *)
Theorem field_by_name_finds_or_exits (c : CouplingContract.t) (n : string) :
  CouplingContract.reachable c ->
  (forall ix, c.(CouplingContract._name_to_ix) !! n = Some ix ->
     exists cf, field_by_name c n = Ret (Some cf) /\
                CouplingContract.name cf = n) /\
  (c.(CouplingContract._name_to_ix) !! n = None ->
     field_by_name c n = Fatal 1 (CouplingContract.index_diagnostic n)).
Proof.
  intros Hr. pose proof (reachable_consistent c Hr) as Hc. split.
  - intros ix Hl. unfold field_by_name.
    rewrite (index_hit c n ix true Hl). simpl.
    apply Hc in Hl as [Hix Hl]. unfold CouplingContract.field.
    assert ((ix <? 0) = false) as -> by lia.
    destruct (CouplingContract._ix_to_field c !! Z.to_nat ix) as [f |];
      [| discriminate].
    exists f. split; [reflexivity |]. simpl in Hl. congruence.
  - intros Hl. unfold field_by_name.
    rewrite (index_miss c n true Hl). reflexivity.
Qed.

Lemma field_by_name_finds_or_exits_witness :
  (exists cf, field_by_name lismb_unit_contract "lismb" = Ret (Some cf) /\
              CouplingContract.name cf = "lismb") /\
  field_by_name lismb_unit_contract "litg2"
    = Fatal 1 (CouplingContract.index_diagnostic "litg2").
Proof.
  destruct (field_by_name_finds_or_exits lismb_unit_contract "lismb"
              lismb_unit_contract_reachable) as [Hhit _].
  destruct (field_by_name_finds_or_exits lismb_unit_contract "litg2"
              lismb_unit_contract_reachable) as [_ Hmiss].
  split; [apply (Hhit 0); vm_compute; reflexivity |].
  apply Hmiss. vm_compute. reflexivity.
Defined.

(* ===================================================================== *)
(** * Properties of ice sheet registration *)
(* ===================================================================== *)

Section RegistryFacts.
Context {V : Type} `{Arith V}.
Import Registry.

Lemma int_wrap_small (z : Z) :
  - 2147483648 <= z < 2147483648 -> int_wrap z = z.
Proof.
  intros Hz. unfold int_wrap.
  change (2 ^ 31) with 2147483648. change (2 ^ 32) with 4294967296.
  rewrite Z.mod_small by lia. lia.
Qed.

Lemma add_ice_sheet_named (m : maker V) (s : Regrid.IceSheet V) :
  Regrid.sheet_name s <> "" ->
  has_name m (Regrid.sheet_name s) = false ->
  well_formed m ->
  _next_sheet_index m < ModelEDomain.INT_MAX ->
  exists m',
    add_ice_sheet m s = Some (Ret (_next_sheet_index m, m')) /\
    sheets_by_id m' !! _next_sheet_index m
      = Some {| sheet := s; index := _next_sheet_index m |} /\
    (forall k, k <> _next_sheet_index m ->
               sheets_by_id m' !! k = sheets_by_id m !! k) /\
    _next_sheet_index m' = _next_sheet_index m + 1 /\
    sheets m' = sheets m
                ++ [(Regrid.sheet_name s,
                     {| sheet := s; index := _next_sheet_index m |})] /\
    well_formed m'.
Proof.
  intros Hname Hfresh [Hnn Hwf] Hmax. unfold add_ice_sheet.
  destruct (String.eqb_spec (Regrid.sheet_name s) "") as [? | _]; [contradiction |].
  rewrite Hfresh. eexists. split; [reflexivity |]. simpl.
  assert (sheets_by_id m !! _next_sheet_index m = None) as Hnone.
  { destruct (sheets_by_id m !! _next_sheet_index m) as [r |] eqn:Hr;
      [| reflexivity].
    apply Hwf in Hr. lia. }
  unfold map_insert. rewrite Hnone.
  rewrite int_wrap_small by (unfold ModelEDomain.INT_MAX in Hmax; lia).
  split; [apply lookup_insert_eq |].
  split; [intros k Hk; apply lookup_insert_ne; congruence |].
  split; [reflexivity |]. split; [reflexivity |].
  unfold well_formed. simpl. split; [lia |]. intros k r.
  destruct (decide (_next_sheet_index m = k)) as [<- | Hne].
  - rewrite lookup_insert_eq. intros [= <-]. simpl. lia.
  - rewrite lookup_insert_ne by exact Hne. intros Hr.
    apply Hwf in Hr. lia.
Qed.

End RegistryFacts.

(** X11: [add_ice_sheet] refuses a sheet with an empty name with an
    exception.  A sheet with a new, non-empty name (while the counter is
    below [INT_MAX]) gets the current counter value as its index: the
    call returns it, the sheet is stored under it in [sheets_by_id] with
    that [index], the other entries are untouched, the counter advances
    by one, and every stored sheet still sits under its own index. *)
Theorem add_ice_sheet_assigns_next_index {V : Type} `{Arith V}
    (m : Registry.maker V) (s : Regrid.IceSheet V) :
  (Regrid.sheet_name s = "" -> Registry.add_ice_sheet m s = Some Throw) /\
  (Regrid.sheet_name s <> "" ->
   Registry.has_name m (Regrid.sheet_name s) = false ->
   Registry.well_formed m ->
   Registry._next_sheet_index m < ModelEDomain.INT_MAX ->
   exists m',
     Registry.add_ice_sheet m s
       = Some (Ret (Registry._next_sheet_index m, m')) /\
     Registry.sheets_by_id m' !! Registry._next_sheet_index m
       = Some {| Registry.sheet := s;
                 Registry.index := Registry._next_sheet_index m |} /\
     (forall k, k <> Registry._next_sheet_index m ->
        Registry.sheets_by_id m' !! k = Registry.sheets_by_id m !! k) /\
     Registry._next_sheet_index m' = Registry._next_sheet_index m + 1 /\
     Registry.well_formed m').
Proof.
  split.
  - intros Hname. unfold Registry.add_ice_sheet. rewrite Hname. reflexivity.
  - intros Hname Hfresh Hwf Hmax.
    destruct (add_ice_sheet_named m s Hname Hfresh Hwf Hmax)
      as (m' & Hadd & Hnew & Hold & Hnext & _ & Hwf').
    exists m'. auto.
Qed.

Lemma cleared_maker_well_formed : Registry.well_formed cleared_maker.
Proof.
  split; [vm_compute; discriminate |].
  intros k r Hl. unfold cleared_maker, Registry.clear in Hl. simpl in Hl.
  rewrite lookup_empty in Hl. discriminate.
Defined.

Lemma add_ice_sheet_assigns_next_index_witness :
  Registry.add_ice_sheet cleared_maker (named_sheet "") = Some Throw /\
  exists m',
    Registry.add_ice_sheet cleared_maker (named_sheet "greenland")
      = Some (Ret (3, m')) /\
    Registry._next_sheet_index m' = 4.
Proof.
  split.
  - destruct (add_ice_sheet_assigns_next_index cleared_maker (named_sheet ""))
      as [Hthrow _].
    apply Hthrow. reflexivity.
  - destruct (add_ice_sheet_assigns_next_index cleared_maker
                (named_sheet "greenland")) as [_ Hadd].
    destruct Hadd as (m' & Hret & _ & _ & Hnext & _).
    + discriminate.
    + reflexivity.
    + exact cleared_maker_well_formed.
    + vm_compute. reflexivity.
    + exists m'. split; [exact Hret | exact Hnext].
Defined.

(** X12: [clear] drops the sheets but leaves [_next_sheet_index] as it
    is, so the first sheet added after a [clear] gets the index the
    counter had reached, which no sheet registered before ever had. *)
Theorem clear_keeps_sheet_counter {V : Type} `{Arith V}
    (m : Registry.maker V) (s : Regrid.IceSheet V) :
  Registry.well_formed m ->
  Regrid.sheet_name s <> "" ->
  Registry._next_sheet_index m < ModelEDomain.INT_MAX ->
  Registry.sheets_by_id (Registry.clear m) = ∅ /\
  (exists m',
     Registry.add_ice_sheet (Registry.clear m) s
       = Some (Ret (Registry._next_sheet_index m, m'))) /\
  (forall k r, Registry.sheets_by_id m !! k = Some r ->
               k <> Registry._next_sheet_index m).
Proof.
  intros Hwf Hname Hmax. split; [reflexivity |]. split.
  - assert (Registry.well_formed (Registry.clear m)) as Hwfc.
    { destruct Hwf as [Hnn _]. split; [exact Hnn |].
      intros k r Hl. simpl in Hl. rewrite lookup_empty in Hl. discriminate. }
    destruct (add_ice_sheet_named (Registry.clear m) s Hname eq_refl Hwfc Hmax)
      as (m' & Hadd & _).
    exists m'. exact Hadd.
  - intros k r Hl. destruct Hwf as [_ Hwf]. apply Hwf in Hl. lia.
Qed.

Lemma clear_keeps_sheet_counter_witness :
  exists m',
    Registry.add_ice_sheet (Registry.clear cleared_maker)
      (named_sheet "greenland") = Some (Ret (3, m')).
Proof.
  destruct (clear_keeps_sheet_counter cleared_maker (named_sheet "greenland"))
    as (_ & Hadd & _).
  - exact cleared_maker_well_formed.
  - discriminate.
  - vm_compute. reflexivity.
  - exact Hadd.
Defined.

Section RegistrySequence.
Context {V : Type} `{Arith V}.
Import Registry.

Lemma has_name_after_add (m m' : maker V) (s : Regrid.IceSheet V) (ix : Z)
    (n : string) :
  add_ice_sheet m s = Some (Ret (ix, m')) ->
  has_name m' n = has_name m n || String.eqb (Regrid.sheet_name s) n.
Proof.
  unfold add_ice_sheet.
  destruct (String.eqb (Regrid.sheet_name s) ""); [discriminate |].
  destruct (has_name m (Regrid.sheet_name s)); [discriminate |].
  intros [= <- <-]. unfold has_name. simpl.
  rewrite existsb_app. simpl. rewrite orb_false_r. reflexivity.
Qed.

Lemma seqZ_succ_nat (a : Z) (n : nat) :
  seqZ a (Z.of_nat (S n)) = a :: seqZ (a + 1) (Z.of_nat n).
Proof.
  rewrite seqZ_cons by lia. f_equal. f_equal; lia.
Qed.

Lemma add_ice_sheets_in_order (l : list (Regrid.IceSheet V)) :
  forall m : maker V,
    well_formed m ->
    Forall (fun s => Regrid.sheet_name s <> "") l ->
    NoDup (map Regrid.sheet_name l) ->
    Forall (fun s => has_name m (Regrid.sheet_name s) = false) l ->
    _next_sheet_index m + Z.of_nat (length l) <= ModelEDomain.INT_MAX ->
    exists m',
      add_ice_sheets m l
        = Some (Ret (seqZ (_next_sheet_index m) (Z.of_nat (length l)), m')) /\
      _next_sheet_index m' = _next_sheet_index m + Z.of_nat (length l) /\
      well_formed m' /\
      (forall k, k < _next_sheet_index m ->
         sheets_by_id m' !! k = sheets_by_id m !! k) /\
      (forall (i : nat) s, l !! i = Some s ->
         sheets_by_id m' !! (_next_sheet_index m + Z.of_nat i)
         = Some {| sheet := s; index := _next_sheet_index m + Z.of_nat i |}).
Proof.
  induction l as [| s l IH]; intros m Hwf Hnames Hnodup Hfresh Hmax.
  - exists m. simpl. rewrite Z.add_0_r.
    split; [reflexivity |]. split; [reflexivity |]. split; [exact Hwf |].
    split; [reflexivity |].
    intros i s Hl. destruct i; discriminate.
  - inversion Hnames as [| ? ? Hs Hnames']; subst.
    inversion Hfresh as [| ? ? Hfs Hfresh']; subst.
    simpl in Hnodup. apply NoDup_cons in Hnodup as [Hnotin Hnodup'].
    simpl length in *.
    destruct (add_ice_sheet_named m s Hs Hfs Hwf ltac:(lia))
      as (m1 & Hadd & Hnew & Hold & Hnext & _ & Hwf1).
    assert (Forall (fun s' => has_name m1 (Regrid.sheet_name s') = false) l)
      as Hfresh1.
    { apply Forall_forall. intros s' Hin.
      rewrite (has_name_after_add m m1 s _ _ Hadd).
      rewrite Forall_forall in Hfresh'. rewrite (Hfresh' s' Hin). simpl.
      apply String.eqb_neq. intros Heq. apply Hnotin. rewrite Heq.
      apply list_elem_of_fmap_2. exact Hin. }
    assert (_next_sheet_index m1 + Z.of_nat (length l) <= ModelEDomain.INT_MAX)
      as Hmax1 by (clear - Hmax Hnext; lia).
    destruct (IH m1 Hwf1 Hnames' Hnodup' Hfresh1 Hmax1)
      as (m' & Hrest & Hnext' & Hwf' & Hkeep & Hstored).
    exists m'. cbn [add_ice_sheets]. rewrite Hadd, Hrest.
    split.
    { rewrite seqZ_succ_nat, Hnext. reflexivity. }
    split; [clear - Hnext Hnext'; lia |]. split; [exact Hwf' |]. split.
    + intros k Hk. rewrite Hkeep by (clear - Hk Hnext; lia).
      apply Hold. clear - Hk. lia.
    + intros i s' Hl. destruct i as [| i]; simpl in Hl.
      * injection Hl as <-. rewrite Z.add_0_r.
        rewrite Hkeep by (clear - Hnext; lia). exact Hnew.
      * specialize (Hstored i s' Hl). rewrite Hnext in Hstored.
        replace (_next_sheet_index m + Z.of_nat (S i))
          with (_next_sheet_index m + 1 + Z.of_nat i) by (clear - i; lia).
        exact Hstored.
Qed.

End RegistrySequence.

(** X13: adding a list of sheets with distinct, new, non-empty names (as
    the loop of [read_from_netcdf] does) hands out consecutive indices
    starting at the current counter, in the order of the list; afterwards
    the i-th sheet is stored in [sheets_by_id] under the i-th of these
    indices and the entries that were there before are unchanged. *)
Theorem add_ice_sheets_consecutive {V : Type} `{Arith V}
    (m : Registry.maker V) (l : list (Regrid.IceSheet V)) :
  Registry.well_formed m ->
  Forall (fun s => Regrid.sheet_name s <> "") l ->
  NoDup (map Regrid.sheet_name l) ->
  Forall (fun s => Registry.has_name m (Regrid.sheet_name s) = false) l ->
  Registry._next_sheet_index m + Z.of_nat (length l) <= ModelEDomain.INT_MAX ->
  exists m',
    Registry.add_ice_sheets m l
      = Some (Ret (seqZ (Registry._next_sheet_index m) (Z.of_nat (length l)),
                   m')) /\
    (forall k, k < Registry._next_sheet_index m ->
       Registry.sheets_by_id m' !! k = Registry.sheets_by_id m !! k) /\
    (forall (i : nat) s, l !! i = Some s ->
       Registry.sheets_by_id m' !! (Registry._next_sheet_index m + Z.of_nat i)
       = Some {| Registry.sheet := s;
                 Registry.index := Registry._next_sheet_index m + Z.of_nat i |}).
Proof.
  intros Hwf Hnames Hnodup Hfresh Hmax.
  destruct (add_ice_sheets_in_order l m Hwf Hnames Hnodup Hfresh Hmax)
    as (m' & Hrun & _ & _ & Hkeep & Hstored).
  exists m'. auto.
Qed.

Lemma add_ice_sheets_consecutive_witness :
  exists m',
    Registry.add_ice_sheets cleared_maker
      [named_sheet "greenland"; named_sheet "antarctica"]
    = Some (Ret ([3; 4], m')).
Proof.
  destruct (add_ice_sheets_consecutive cleared_maker
              [named_sheet "greenland"; named_sheet "antarctica"])
    as (m' & Hrun & _).
  - exact cleared_maker_well_formed.
  - repeat constructor; discriminate.
  - simpl. repeat constructor; simpl; intros Hin.
    + apply list_elem_of_In in Hin. destruct Hin as [Heq | []]. discriminate.
    + apply list_elem_of_In in Hin. destruct Hin.
  - repeat constructor.
  - vm_compute. discriminate.
  - exists m'. exact Hrun.
Defined.

(* ===================================================================== *)
(** * Parsing of elevmask specs (make_merged_topoo.cpp) *)
(* ===================================================================== *)

Section ElevmaskSpecFacts.
Import MergedTopoo.

Lemma prefix_nil (s : string) : String.prefix "" s = true.
Proof. destruct s; reflexivity. Qed.

Lemma index_colon_cons (c : ascii) (s : string) :
  String.index 0 ":" (String c s)
  = if Ascii.ascii_dec ":" c then Some O
    else match String.index 0 ":" s with
         | Some n => Some (S n)
         | None => None
         end.
Proof.
  change (String.index 0 ":" (String c s))
    with (if match Ascii.ascii_dec ":" c with
             | left _ => String.prefix "" s
             | right _ => false
             end
          then Some O
          else match String.index 0 ":" s with
               | Some n => Some (S n)
               | None => None
               end).
  destruct (Ascii.ascii_dec ":" c); [rewrite prefix_nil |]; reflexivity.
Qed.

Lemma index_first_colon (ty f : string) :
  no_colon ty ->
  String.index 0 ":" (ty +:+ String ":" f) = Some (String.length ty).
Proof.
  unfold no_colon. induction ty as [| c ty IH]; intros Hno.
  - rewrite str_app_nil_l, index_colon_cons.
    destruct (Ascii.ascii_dec ":" ":") as [_ | Hne]; [reflexivity |].
    exfalso. apply Hne. reflexivity.
  - rewrite str_app_cons, index_colon_cons.
    rewrite index_colon_cons in Hno.
    destruct (Ascii.ascii_dec ":" c) as [| Hne]; [discriminate |].
    destruct (String.index 0 ":" ty) eqn:Hty; [discriminate |].
    rewrite IH by reflexivity. reflexivity.
Qed.

Lemma substring_prefix (ty rest : string) :
  String.substring 0 (String.length ty) (ty +:+ rest) = ty.
Proof.
  induction ty as [| c ty IH].
  - destruct rest; reflexivity.
  - rewrite str_app_cons. simpl. rewrite IH. reflexivity.
Qed.

Lemma substring_whole (s : string) : forall n : nat,
  (String.length s <= n)%nat -> String.substring 0 n s = s.
Proof.
  induction s as [| c s IH]; intros n Hn.
  - destruct n; reflexivity.
  - destruct n as [| n]; simpl in *; [lia |].
    rewrite IH by lia. reflexivity.
Qed.

Lemma substring_suffix (ty f : string) (c : ascii) : forall n : nat,
  String.substring (S (String.length ty)) n (ty +:+ String c f)
  = String.substring 0 n f.
Proof.
  induction ty as [| c' ty IH]; intros n.
  - reflexivity.
  - rewrite str_app_cons. simpl. apply IH.
Qed.

Lemma length_str_app (s t : string) :
  String.length (s +:+ t) = (String.length s + String.length t)%nat.
Proof.
  induction s as [| c s IH]; [reflexivity |].
  rewrite str_app_cons. simpl. rewrite IH. reflexivity.
Qed.

Lemma spec_splits (ty f : string) :
  no_colon ty ->
  let xfname := ty +:+ ":" +:+ f in
  find_colon xfname = Z.of_nat (String.length ty) /\
  spec_type xfname (find_colon xfname) = ty /\
  spec_file xfname (find_colon xfname) = f.
Proof.
  intros Hno xfname. subst xfname.
  change (":" +:+ f) with (String ":" f).
  assert (find_colon (ty +:+ String ":" f) = Z.of_nat (String.length ty)) as Hc.
  { unfold find_colon. rewrite (index_first_colon ty f Hno). reflexivity. }
  rewrite Hc. split; [reflexivity |]. split.
  - unfold spec_type.
    assert ((Z.of_nat (String.length ty) <? 0) = false) as ->
      by (apply Z.ltb_ge; lia).
    rewrite Nat2Z.id. apply substring_prefix.
  - unfold spec_file.
    replace (Z.to_nat (Z.of_nat (String.length ty) + 1))
      with (S (String.length ty)) by lia.
    rewrite substring_suffix. apply substring_whole.
    rewrite length_str_app. simpl. lia.
Qed.

Lemma no_colon_pism : no_colon "pism".
Proof. reflexivity. Qed.

Lemma pism_spec_well_formed (f : string) :
  well_formed (pism_spec f) = true /\
  spec_file (pism_spec f) (find_colon (pism_spec f)) = f.
Proof.
  destruct (spec_splits "pism" f no_colon_pism) as (Hc & Hty & Hf).
  unfold well_formed. change (pism_spec f) with ("pism" +:+ ":" +:+ f).
  split; [rewrite Hty, Hc; reflexivity | exact Hf].
Qed.

Lemma read_pism_specs (cb : bool) (files : list string) : forall st,
  read_elevmasks cb st (map pism_spec files) = inl (st.1, st.2 ++ files).
Proof.
  induction files as [| f files IH]; intros st; simpl.
  - rewrite app_nil_r. destruct st; reflexivity.
  - destruct (pism_spec_well_formed f) as [Hwf Hf].
    rewrite (read_elevmask_well_formed cb st _ Hwf), Hf, IH. simpl.
    rewrite <- app_assoc. reflexivity.
Qed.

Lemma find_colon_none (xfname : string) :
  no_colon xfname -> find_colon xfname = -1.
Proof. unfold no_colon, find_colon. intros ->. reflexivity. Qed.

Lemma spec_type_colonless (xfname : string) : spec_type xfname (-1) = xfname.
Proof. reflexivity. Qed.

Lemma spec_file_colonless (xfname : string) : spec_file xfname (-1) = xfname.
Proof.
  unfold spec_file. change (Z.to_nat (-1 + 1)) with O.
  apply substring_whole. lia.
Qed.

End ElevmaskSpecFacts.

(** X14: an elevmask spec "type:fname" whose type has no colon is split
    at its first colon: [find] returns the length of the type,
    [substr(0, colon)] is the type and [substr(colon+1)] is the file
    name, with any further colons left inside the file name. *)
Theorem elevmask_spec_splits_at_first_colon (ty fname : string) :
  no_colon ty ->
  let xfname := ty +:+ ":" +:+ fname in
  MergedTopoo.find_colon xfname = Z.of_nat (String.length ty) /\
  MergedTopoo.spec_type xfname (MergedTopoo.find_colon xfname) = ty /\
  MergedTopoo.spec_file xfname (MergedTopoo.find_colon xfname) = fname.
Proof. apply spec_splits. Qed.

Lemma elevmask_spec_splits_at_first_colon_witness :
  MergedTopoo.find_colon "pism:run:1/state.nc" = 4 /\
  MergedTopoo.spec_type "pism:run:1/state.nc"
    (MergedTopoo.find_colon "pism:run:1/state.nc") = "pism" /\
  MergedTopoo.spec_file "pism:run:1/state.nc"
    (MergedTopoo.find_colon "pism:run:1/state.nc") = "run:1/state.nc".
Proof.
  apply (elevmask_spec_splits_at_first_colon "pism" "run:1/state.nc").
  reflexivity.
Defined.

(** X15: when every elevmask spec is "pism:" followed by a file name,
    the loop of [main] calls [read_elevmask_pism] on exactly these file
    names, in the order of the command line, and never goes through
    [icebin_error]: whether that callback returns or not, [main] returns
    after writing its output. *)
Theorem pism_specs_read_in_order
    (callback_returns : bool) (files merge_errs eam_errs : list string) :
  MergedTopoo.read_elevmasks callback_returns ([], []) (map pism_spec files)
    = inl ([], files) /\
  let r := MergedTopoo.main callback_returns (map pism_spec files)
             merge_errs eam_errs in
  MergedTopoo.callback_messages r = [] /\
  MergedTopoo.output_written r = true /\
  MergedTopoo.end_of_run r
    = MergedTopoo.Returned (if decide (merge_errs ++ eam_errs = []) then 0 else -1).
Proof.
  pose proof (read_pism_specs callback_returns files ([], [])) as Hread.
  simpl in Hread. split; [exact Hread |].
  unfold MergedTopoo.main. rewrite Hread. simpl.
  split; [reflexivity |]. split; [reflexivity |].
  destruct (merge_errs ++ eam_errs) as [| e es]; reflexivity.
Qed.

(** X16: a spec without a colon is handed to [icebin_error] as
    malformed.  When the callback terminates the process the run stops
    there.  When it returns, the loop body goes on with [colon = -1]:
    both the type and the file name are then the whole spec, so the spec
    "pism" is read as a PISM file of that name and any other spec is
    reported a second time, as an unrecognized type. *)
Theorem colonless_spec_reported_then_dispatched
    (st : MergedTopoo.loop_state) (xfname : string) :
  no_colon xfname ->
  MergedTopoo.read_elevmask false st xfname
    = inr (-1, MergedTopoo.bad_format_message xfname, st) /\
  MergedTopoo.read_elevmask true st xfname
    = if String.eqb xfname "pism"
      then inl (st.1 ++ [MergedTopoo.bad_format_message xfname],
                st.2 ++ [xfname])
      else inl (st.1 ++ [MergedTopoo.bad_format_message xfname;
                         MergedTopoo.unrecognized_message xfname],
                st.2).
Proof.
  intros Hno. unfold MergedTopoo.read_elevmask.
  rewrite (find_colon_none xfname Hno).
  rewrite spec_type_colonless, spec_file_colonless.
  change (-1 <? 0) with true. cbv iota.
  unfold MergedTopoo.icebin_error.
  split; [reflexivity |].
  destruct (String.eqb xfname "pism"); simpl; [reflexivity |].
  rewrite <- app_assoc. reflexivity.
Qed.

Lemma colonless_spec_reported_then_dispatched_witness :
  MergedTopoo.read_elevmask false ([], []) "gris.nc"
    = inr (-1, "elevmask spec 'gris.nc' must be in the format of type:fname",
           ([], [])) /\
  MergedTopoo.read_elevmask true ([], []) "gris.nc"
    = inl (["elevmask spec 'gris.nc' must be in the format of type:fname";
            "Unrecognized elevmask spec type gris.nc"], []).
Proof.
  apply (colonless_spec_reported_then_dispatched ([], []) "gris.nc").
  reflexivity.
Defined.

(* ===================================================================== *)
(** * What the transformers of the setup compute (modele_pism.cpp) *)
(* ===================================================================== *)

Section RecipeFacts.
Context {V : Type} `{Arith V}.
Import VarTransformer ModelePism.

Lemma gcm_to_ice_symbolic (E E' K lismb liseb litg2 : V)
    (ct : ModelE_CouplingType) :
  let vt := var_transformer_INPUT (setup_on_modele E E' K ct) in
  evaluate_named vt [lismb; liseb; litg2] [] MASS_FLUX
    = Some (weighted_sum [(vadd vzero vone, lismb); (vzero, liseb);
                          (vzero, litg2); (vzero, vone)]) /\
  evaluate_named vt [lismb; liseb; litg2] [] ENTHALPY_FLUX
    = Some (weighted_sum [(vadd vzero E, lismb); (vadd vzero vone, liseb);
                          (vzero, litg2); (vzero, vone)]) /\
  evaluate_named vt [lismb; liseb; litg2] [] T
    = match ct with
      | DIRICHLET_BC =>
          Some (weighted_sum [(vzero, lismb); (vzero, liseb);
                              (vadd vzero vone, litg2); (vadd vzero K, vone)])
      | NEUMANN_BC => None
      end /\
  evaluate_named vt [lismb; liseb; litg2] [] HEAT_FLUX
    = match ct with
      | DIRICHLET_BC => None
      | NEUMANN_BC =>
          Some (weighted_sum [(vzero, lismb); (vzero, liseb);
                              (vzero, litg2); (vzero, vone)])
      end.
Proof. destruct ct; vm_compute; repeat split; reflexivity. Qed.

End RecipeFacts.

(** X18: in exact arithmetic the GCM -> Ice transformer built by the
    setup hands PISM the mass flux [lismb] unchanged and the enthalpy
    flux [liseb + enth_modele_to_pism * lismb], for both coupling types;
    under Dirichlet coupling the surface temperature is [litg2 + C2K]
    and there is no heat-flux field; under Neumann coupling there is no
    temperature field and the conductive heat flux is 0 whatever the GCM
    sends, since no recipe is set for it. *)
Theorem gcm_to_ice_formulas (E E' K lismb liseb litg2 : Qc)
    (ct : ModelePism.ModelE_CouplingType) :
  let vt := ModelePism.var_transformer_INPUT (setup_on_modele E E' K ct) in
  let value := VarTransformer.evaluate_named vt [lismb; liseb; litg2] [] in
  value ModelePism.MASS_FLUX = Some lismb /\
  value ModelePism.ENTHALPY_FLUX = Some (liseb + E * lismb)%Qc /\
  value ModelePism.T
    = match ct with
      | ModelePism.DIRICHLET_BC => Some (litg2 + K)%Qc
      | ModelePism.NEUMANN_BC => None
      end /\
  value ModelePism.HEAT_FLUX
    = match ct with
      | ModelePism.DIRICHLET_BC => None
      | ModelePism.NEUMANN_BC => Some 0%Qc
      end.
Proof.
  intros vt value.
  destruct (gcm_to_ice_symbolic (V:=Qc) E E' K lismb liseb litg2 ct)
    as (Hm & He & Ht & Hh).
  subst value vt. rewrite Hm, He, Ht, Hh.
  repeat split; try destruct ct; try reflexivity; f_equal;
    cbn [weighted_sum vsum map fold_left fst snd vadd vmul vzero vone vopp
         Arith_exact]; ring.
Qed.

Section OutputRecipeFacts.
Context {V : Type} `{Arith V}.
Import VarTransformer ModelePism.

Lemma ice_to_gcm_symbolic (E E' K : V) (ct : ModelE_CouplingType)
    (usurf enth depth brm bre cm ce sh em ee : V) :
  let vt := var_transformer_OUTPUT (setup_on_modele E E' K ct) in
  let vals := [usurf; enth; depth; brm; bre; cm; ce; sh; em; ee] in
  let once := vadd vzero vone in
  let twice := vadd (vadd vzero vone) (vopp E) in
  evaluate_named vt vals [] "elev2"
    = Some (weighted_sum (single_coefficient 0 once vals)) /\
  evaluate_named vt vals [] "elev1"
    = Some (weighted_sum (single_coefficient 0 once vals)) /\
  evaluate_named vt vals [] "ice_surface_enth_depth"
    = Some (weighted_sum (single_coefficient 2 once vals)) /\
  evaluate_named vt vals [] "basal_runoff.mass"
    = Some (weighted_sum (single_coefficient 3 once vals)) /\
  evaluate_named vt vals [] "calving.mass"
    = Some (weighted_sum (single_coefficient 5 once vals)) /\
  evaluate_named vt vals [] "strain_heating"
    = Some (weighted_sum (single_coefficient 7 once vals)) /\
  evaluate_named vt vals [] "epsilon.mass"
    = Some (weighted_sum (single_coefficient 8 once vals)) /\
  evaluate_named vt vals [] "basal_runoff.enth"
    = Some (weighted_sum (single_coefficient 4 twice vals)) /\
  evaluate_named vt vals [] "calving.enth"
    = Some (weighted_sum (single_coefficient 6 twice vals)) /\
  evaluate_named vt vals [] "epsilon.enth"
    = Some (weighted_sum (single_coefficient 9 twice vals)).
Proof. destruct ct; vm_compute; repeat split; reflexivity. Qed.

End OutputRecipeFacts.

Lemma weighted_sum_single (n : nat) (c : Qc)
    (x0 x1 x2 x3 x4 x5 x6 x7 x8 x9 : Qc) :
  (n < 10)%nat ->
  weighted_sum (single_coefficient n c [x0; x1; x2; x3; x4; x5; x6; x7; x8; x9])
  = (c * nth n [x0; x1; x2; x3; x4; x5; x6; x7; x8; x9] 0)%Qc.
Proof.
  intros Hn.
  do 10 (destruct n as [| n];
         [cbn [weighted_sum single_coefficient imap app vsum map fold_left
               fst snd vadd vmul vzero vone Arith_exact Nat.eqb nth compose];
          ring |]).
  lia.
Qed.

(** X19: in exact arithmetic the Ice -> GCM transformer built by the
    setup copies the PISM surface elevation [usurf] to both "elev2" and
    "elev1", and passes the enthalpy depth, the three mass fluxes and the
    strain heating through unchanged, for both coupling types and
    whatever the other PISM outputs are. *)
Theorem ice_to_gcm_pass_through (E E' K : Qc)
    (ct : ModelePism.ModelE_CouplingType)
    (usurf enth depth brm bre cm ce sh em ee : Qc) :
  let vt := ModelePism.var_transformer_OUTPUT (setup_on_modele E E' K ct) in
  let value :=
    VarTransformer.evaluate_named vt
      [usurf; enth; depth; brm; bre; cm; ce; sh; em; ee] [] in
  value "elev2" = Some usurf /\
  value "elev1" = Some usurf /\
  value "ice_surface_enth_depth" = Some depth /\
  value "basal_runoff.mass" = Some brm /\
  value "calving.mass" = Some cm /\
  value "strain_heating" = Some sh /\
  value "epsilon.mass" = Some em.
Proof.
  intros vt value.
  destruct (ice_to_gcm_symbolic (V:=Qc) E E' K ct
              usurf enth depth brm bre cm ce sh em ee)
    as (H1 & H2 & H3 & H4 & H5 & H6 & H7 & _).
  subst value vt. rewrite H1, H2, H3, H4, H5, H6, H7.
  rewrite !weighted_sum_single by lia.
  cbn [nth vadd vzero vone Arith_exact].
  repeat split; f_equal; ring.
Qed.

(** X20: for the three enthalpy fluxes "basal_runoff.enth",
    "calving.enth" and "epsilon.enth" the setup makes two [set] calls on
    the same (output, input) pair, with coefficients 1 and
    [-enth_modele_to_pism]; they add up, so in exact arithmetic the value
    handed to the GCM is [(1 - enth_modele_to_pism)] times the PISM
    value, and does not depend on the matching mass flux. *)
Theorem ice_to_gcm_enthalpy_fluxes_scaled (E E' K : Qc)
    (ct : ModelePism.ModelE_CouplingType)
    (usurf enth depth brm bre cm ce sh em ee : Qc) :
  let vt := ModelePism.var_transformer_OUTPUT (setup_on_modele E E' K ct) in
  let value :=
    VarTransformer.evaluate_named vt
      [usurf; enth; depth; brm; bre; cm; ce; sh; em; ee] [] in
  value "basal_runoff.enth" = Some ((1 - E) * bre)%Qc /\
  value "calving.enth" = Some ((1 - E) * ce)%Qc /\
  value "epsilon.enth" = Some ((1 - E) * ee)%Qc.
Proof.
  intros vt value.
  destruct (ice_to_gcm_symbolic (V:=Qc) E E' K ct
              usurf enth depth brm bre cm ce sh em ee)
    as (_ & _ & _ & _ & _ & _ & _ & H8 & H9 & H10).
  subst value vt. rewrite H8, H9, H10.
  rewrite !weighted_sum_single by lia.
  cbn [nth vadd vopp vzero vone Arith_exact].
  repeat split; f_equal; ring.
Qed.

(* ===================================================================== *)
(** * Height-class weights of a cell (MatrixMaker.cpp) *)
(* ===================================================================== *)

Section WeightFacts.
Import Regrid.
Local Open Scope Qc_scope.

Lemma key_sum_app (g : Z -> bool) (v w : list (Z * Qc)) :
  key_sum g (v ++ w) = key_sum g v + key_sum g w.
Proof.
  induction v as [| [k x] v IH]; simpl; [ring |].
  destruct (g k); rewrite IH; ring.
Qed.

Lemma key_sum_perm (g : Z -> bool) (v w : list (Z * Qc)) :
  v ≡ₚ w -> key_sum g v = key_sum g w.
Proof.
  induction 1 as [| [k x] v w _ IH | [k1 x1] [k2 x2] v | v w u _ IH1 _ IH2];
    simpl.
  - reflexivity.
  - rewrite IH. reflexivity.
  - destruct (g k1), (g k2); ring.
  - rewrite IH1. exact IH2.
Qed.

Lemma key_sum_insert (g : Z -> bool) (m : gmap Z Qc) (k : Z) (x : Qc) :
  m !! k = None ->
  key_sum g (map_to_list (<[k := x]> m))
  = (if g k then x else 0) + key_sum g (map_to_list m).
Proof.
  intros Hk. rewrite (key_sum_perm g _ _ (map_to_list_insert m k x Hk)).
  simpl. destruct (g k); ring.
Qed.

Lemma key_sum_acc_add (g : Z -> bool) (m : gmap Z Qc) (k : Z) (v : Qc) :
  key_sum g (map_to_list (acc_add m k v))
  = key_sum g (map_to_list m) + (if g k then v else 0).
Proof.
  destruct (m !! k) as [x |] eqn:Hk.
  - assert (acc_add m k v = <[k := x + v]> (delete k m)) as ->.
    { apply map_eq. intros j. rewrite lookup_acc_add.
      destruct (decide (k = j)) as [<- | Hne].
      - rewrite Hk, lookup_insert_eq. reflexivity.
      - rewrite lookup_insert_ne, lookup_delete_ne by exact Hne. reflexivity. }
    assert (m = <[k := x]> (delete k m)) as Hm.
    { apply map_eq. intros j.
      destruct (decide (k = j)) as [<- | Hne].
      - rewrite Hk, lookup_insert_eq. reflexivity.
      - rewrite lookup_insert_ne, lookup_delete_ne by exact Hne. reflexivity. }
    rewrite Hm at 2.
    rewrite !key_sum_insert by apply lookup_delete_eq.
    destruct (g k); ring.
  - assert (acc_add m k v = <[k := v]> m) as ->.
    { apply map_eq. intros j. rewrite lookup_acc_add.
      destruct (decide (k = j)) as [<- | Hne].
      - rewrite Hk, lookup_insert_eq. reflexivity.
      - rewrite lookup_insert_ne by exact Hne. reflexivity. }
    rewrite key_sum_insert by exact Hk. ring.
Qed.

Lemma key_sum_acc_fold (g : Z -> bool) (l : list (Z * Qc)) : forall m,
  key_sum g (map_to_list (acc_fold m l))
  = key_sum g (map_to_list m) + key_sum g l.
Proof.
  induction l as [| [k v] l IH]; intros m.
  - simpl. ring.
  - change (acc_fold m ((k, v) :: l)) with (acc_fold (acc_add m k v) l).
    rewrite IH, key_sum_acc_add. simpl. destruct (g k); ring.
Qed.

Lemma cell_weight_perm (v w : list (Z * Z * Qc)) i1 :
  v ≡ₚ w -> cell_weight v i1 = cell_weight w i1.
Proof.
  induction 1 as [| [[i hc] x] v w _ IH
                 | [[i hc] x] [[i' hc'] x'] v | v w u _ IH1 _ IH2]; simpl.
  - reflexivity.
  - rewrite IH. reflexivity.
  - destruct (decide (i = i1)), (decide (i' = i1)); ring.
  - rewrite IH1. exact IH2.
Qed.

(** The weights of a cell are the accumulated areas of its height
    classes, each divided by the accumulated area of the cell. *)
Lemma cell_weight_entries (hci : HCIndex) (am : gmap Z Qc) (i1 : Z)
    (l : list (Z * Qc)) :
  cell_weight (map (fhc_entry hci am) l) i1
  = key_sum (in_cell hci i1) l / acc_get am i1.
Proof.
  induction l as [| [idx a] l IH]; simpl.
  - unfold Qcdiv. ring.
  - unfold fhc_entry at 1, in_cell at 1. simpl.
    destruct (index_to_ik hci idx) as [i hc] eqn:Hd. simpl.
    destruct (decide (i = i1)) as [-> | Hne].
    + rewrite bool_decide_eq_true_2 by reflexivity.
      rewrite IH. unfold Qcdiv. ring.
    + rewrite bool_decide_eq_false_2 by exact Hne. exact IH.
Qed.

Lemma key_sum_hc_entries (hci : HCIndex) (i1 : Z) (ov : list (Z * Z * Qc)) :
  Forall (fun o : Z * Z * Qc =>
            index_to_ik hci (ik_to_index hci o.1.1 o.1.2) = o.1) ov ->
  key_sum (in_cell hci i1) (hc_entries hci ov) = ice_area ov i1.
Proof.
  induction 1 as [| [[i hc] a] ov Hd _ IH]; simpl; [reflexivity |].
  simpl in Hd. unfold in_cell at 1. rewrite Hd. simpl.
  destruct (decide (i = i1)) as [-> | Hne].
  - rewrite bool_decide_eq_true_2 by reflexivity. rewrite IH. reflexivity.
  - rewrite bool_decide_eq_false_2 by exact Hne. exact IH.
Qed.

Lemma key_sum_all_sheets (hci : HCIndex) (i1 : Z) (ss : list (IceSheet Qc)) :
  decodes_overlaps hci ss ->
  key_sum (in_cell hci i1)
    (concat (map (fun s => hc_entries hci (overlaps s)) ss))
  = total_ice_area ss i1.
Proof.
  induction 1 as [| s ss Hs _ IH]; simpl; [reflexivity |].
  rewrite key_sum_app, IH, (key_sum_hc_entries hci i1 _ Hs). reflexivity.
Qed.

Lemma coo_get_all_sheets (i1 : Z) (ss : list (IceSheet Qc)) :
  coo_get (concat (map (fun s => cell_entries (overlaps s)) ss)) i1
  = total_ice_area ss i1.
Proof.
  induction ss as [| s ss IH]; simpl; [reflexivity |].
  rewrite coo_get_app, IH, ice_area_cell_entries. reflexivity.
Qed.

(** The accumulated area of a cell is the ice-covered area of all
    sheets inside it. *)
Lemma cell_area_accumulated (mm : MatrixMaker Qc) (i1 : Z) :
  acc_get (area1_m (accumulate mm)) i1 = total_ice_area (sheets mm) i1.
Proof.
  destruct (accumulated_areas mm) as [-> _].
  unfold acc_get. rewrite lookup_acc_fold, lookup_empty. simpl.
  rewrite <- coo_get_all_sheets.
  destruct (has_key _ i1) eqn:Hk; simpl; [reflexivity |].
  rewrite (coo_get_no_key _ _ Hk). reflexivity.
Qed.

Lemma cell_weight_value (mm : MatrixMaker Qc) (i1 : Z) :
  decodes_overlaps (hc_index mm) (sheets mm) ->
  cell_weight (compute_fhc mm).1 i1
  = total_ice_area (sheets mm) i1 / total_ice_area (sheets mm) i1.
Proof.
  intros Hdec. rewrite compute_fhc_weights.
  rewrite (cell_weight_perm _ _ i1 (coo_sort_perm pair_ltb _)).
  rewrite cell_weight_entries, cell_area_accumulated.
  destruct (accumulated_areas mm) as [_ ->].
  unfold acc_entries.
  rewrite key_sum_acc_fold, map_to_list_empty, key_sum_all_sheets by exact Hdec.
  simpl. f_equal. ring.
Qed.

End WeightFacts.

(** X17: in exact arithmetic, when the height-class index decodes what
    it encodes on the overlaps of the sheets, the weights [fhc1h] of the
    height classes of a GCM cell add up to 1 for every cell that has
    ice; the accumulated area of the cell that they are divided by is
    the total ice-covered area of all sheets in the cell. *)
Theorem fhc_weights_of_cell_sum_to_one (mm : Regrid.MatrixMaker Qc) (i1 : Z) :
  decodes_overlaps (Regrid.hc_index mm) (Regrid.sheets mm) ->
  total_ice_area (Regrid.sheets mm) i1 <> 0%Qc ->
  Regrid.acc_get (Regrid.area1_m (Regrid.accumulate mm)) i1
    = total_ice_area (Regrid.sheets mm) i1 /\
  cell_weight (Regrid.compute_fhc mm).1 i1 = 1%Qc.
Proof.
  intros Hdec Hpos. split; [apply cell_area_accumulated |].
  rewrite (cell_weight_value mm i1 Hdec). field. exact Hpos.
Qed.

Lemma fhc_weights_of_cell_sum_to_one_witness :
  cell_weight (Regrid.compute_fhc exact_maker).1 0 = 1%Qc.
Proof.
  apply (fhc_weights_of_cell_sum_to_one exact_maker 0).
  - repeat constructor.
  - intros Heq. apply (f_equal this) in Heq. vm_compute in Heq. discriminate.
Defined.
